(** * mini-stabble: the invariant math engine (programs/mini-stabble/src/math)

    A shallow embedding of [math/fixed.rs], [math/weighted.rs] and
    [math/stable.rs].  Machine integers are [Z] values of the stated
    width; every [checked_*] operation of the source becomes a function
    that fails outside the width.  The weighted engine returns
    [Result<_, MiniStabbleError>] (modelled by [result]); the stable
    engine returns [Option<_>] (modelled by [option]). *)

From Stdlib Require Import ZArith Lia List Bool.
Import ListNotations.
Open Scope Z_scope.

(* ------------------------------------------------------------------ *)
(** ** Errors and the two effect monads *)

(** errors.rs *)
Inductive MiniStabbleError :=
| MathOverflow
| DivideByZero
| InvalidAmount
| SlippageExceeded
| NoProfitableArbitrage
| MintOrderInvalid
| InvalidWeight.

(** [Result<T, MiniStabbleError>] *)
Inductive result (A : Type) :=
| Ok : A -> result A
| Err : MiniStabbleError -> result A.
Arguments Ok {A} _.
Arguments Err {A} _.

Definition rbind {A B} (m : result A) (k : A -> result B) : result B :=
  match m with Ok a => k a | Err e => Err e end.

(** [opt.ok_or(e)] *)
Definition ok_or {A} (o : option A) (e : MiniStabbleError) : result A :=
  match o with Some a => Ok a | None => Err e end.

Definition obind {A B} (m : option A) (k : A -> option B) : option B :=
  match m with Some a => k a | None => None end.

(** [?] on a [Result] and on an [Option] *)
Notation "x <- m ;; k" := (rbind m (fun x => k))
  (at level 61, m at next level, right associativity).
Notation "x <-? m ;; k" := (obind m (fun x => k))
  (at level 61, m at next level, right associativity).

(* ------------------------------------------------------------------ *)
(** ** Machine integers *)

Definition U64_MAX1 : Z := 2 ^ 64.
Definition U128_MAX1 : Z := 2 ^ 128.
(** [bn::U192] *)
Definition U192_MAX1 : Z := 2 ^ 192.

Definition in_width (w x : Z) : bool := (0 <=? x) && (x <? w).
Definition fits (w x : Z) : option Z := if in_width w x then Some x else None.

Definition checked_add (w a b : Z) : option Z := fits w (a + b).
Definition checked_sub (w a b : Z) : option Z := fits w (a - b).
Definition checked_mul (w a b : Z) : option Z := fits w (a * b).
Definition checked_div (a b : Z) : option Z := if b =? 0 then None else Some (a / b).
(** [saturating_sub] on an unsigned integer *)
Definition saturating_sub (a b : Z) : Z := Z.max (a - b) 0.

Definition u64 (x : Z) : Prop := 0 <= x < U64_MAX1.
Definition u128 (x : Z) : Prop := 0 <= x < U128_MAX1.

(* ------------------------------------------------------------------ *)
(** ** fixed.rs *)

Definition SCALE : Z := 1000000000.
Definition ZERO : Z := 0.
Definition ONE : Z := SCALE.
Definition TWO : Z := 2 * SCALE.
Definition THREE : Z := 3 * SCALE.
Definition FOUR : Z := 4 * SCALE.
Definition BITS_ONE : Z := 2 ^ 30.
Definition ONE_U64 : Z := 1000000000.

Module U128.

(** [impl FixedMul for u128] *)
Definition mul_down (a b : Z) : result Z :=
  ok_or (obind (checked_mul U128_MAX1 a b) (fun v => checked_div v SCALE)) MathOverflow.

Definition mul_up (a b : Z) : result Z :=
  product <- ok_or (checked_mul U128_MAX1 a b) MathOverflow ;;
  ok_or (obind (checked_add U128_MAX1 product (SCALE - 1)) (fun v => checked_div v SCALE))
        MathOverflow.

(** [impl FixedDiv for u128] *)
Definition div_down (a b : Z) : result Z :=
  if b =? 0 then Err DivideByZero else
  ok_or (obind (checked_mul U128_MAX1 a SCALE) (fun v => checked_div v b)) MathOverflow.

Definition div_up (a b : Z) : result Z :=
  if b =? 0 then Err DivideByZero else
  numerator <- ok_or (checked_mul U128_MAX1 a SCALE) MathOverflow ;;
  ok_or (obind (checked_add U128_MAX1 numerator (b - 1)) (fun v => checked_div v b))
        MathOverflow.

(** [impl FixedComplement for u128]: [ONE.saturating_sub(self)] *)
Definition complement (a : Z) : Z := saturating_sub ONE a.

End U128.

Module U64.

(** [impl FixedMul for u64]: computed in u128, narrowed by [u64::try_from] *)
Definition mul_down (a b : Z) : result Z :=
  ok_or (obind (checked_mul U128_MAX1 a b)
           (fun v => obind (checked_div v ONE_U64) (fits U64_MAX1))) MathOverflow.

Definition mul_up (a b : Z) : result Z :=
  product <- ok_or (checked_mul U128_MAX1 a b) MathOverflow ;;
  ok_or (obind (checked_add U128_MAX1 product (ONE_U64 - 1))
           (fun v => obind (checked_div v ONE_U64) (fits U64_MAX1))) MathOverflow.

(** [impl FixedDiv for u64] *)
Definition div_down (a b : Z) : result Z :=
  if b =? 0 then Err DivideByZero else
  ok_or (obind (checked_mul U128_MAX1 a ONE_U64)
           (fun v => obind (checked_div v b) (fits U64_MAX1))) MathOverflow.

Definition div_up (a b : Z) : result Z :=
  if b =? 0 then Err DivideByZero else
  numerator <- ok_or (checked_mul U128_MAX1 a ONE_U64) MathOverflow ;;
  ok_or (obind (checked_add U128_MAX1 numerator (b - 1))
           (fun v => obind (checked_div v b) (fits U64_MAX1))) MathOverflow.

Definition complement (a : Z) : Z := saturating_sub ONE_U64 a.

End U64.

(** [x as u64] on a u128 value *)
Definition as_u64_trunc (x : Z) : Z := x mod U64_MAX1.

(** The power and everything built on it.  The general branch calls
    [fixed_exp::FixedPowF::powf] on two [U34F30] numbers (64-bit raw
    representations with 30 fractional bits; [None] when the crate reports
    failure).  That function lives in an external crate, not in this
    repository: it is a parameter [powf] of every definition below. *)
Module Pow.
Section WithPowF.
Variable powf : Z -> Z -> option Z.

(** [impl FixedPow for u128] *)
Definition pow_down (self rhs : Z) : result Z :=
  if rhs =? ZERO then Ok ONE
  else if rhs =? ONE then Ok self
  else if rhs =? TWO then U128.mul_down self self
  else if rhs =? THREE then (s <- U128.mul_down self self ;; U128.mul_down s self)
  else if rhs =? FOUR then (square <- U128.mul_down self self ;; U128.mul_down square square)
  else
    base <- U64.mul_down (as_u64_trunc self) BITS_ONE ;;
    exp <- U64.mul_down (as_u64_trunc rhs) BITS_ONE ;;
    p <- ok_or (powf base exp) MathOverflow ;;
    U64.div_down p BITS_ONE.

Definition pow_up (self rhs : Z) : result Z :=
  if rhs =? ZERO then Ok ONE
  else if rhs =? ONE then Ok self
  else if rhs =? TWO then U128.mul_up self self
  else if rhs =? THREE then (s <- U128.mul_up self self ;; U128.mul_up s self)
  else if rhs =? FOUR then (square <- U128.mul_up self self ;; U128.mul_up square square)
  else
    base <- U64.mul_up (as_u64_trunc self) BITS_ONE ;;
    exp <- U64.mul_up (as_u64_trunc rhs) BITS_ONE ;;
    p <- ok_or (powf base exp) MathOverflow ;;
    U64.div_up p BITS_ONE.
End WithPowF.
End Pow.

Module Weighted.
Section WithPowF.
Variable powf : Z -> Z -> option Z.

(** The [for (index, balance) in balances.iter().enumerate()] loop of
    [calc_invariant], with [weights[index]] read alongside. *)
Fixpoint invariant_loop (balances weights : list Z) (invariant : Z) : result Z :=
  match balances, weights with
  | balance :: bs, weight :: ws =>
      r <- Pow.pow_down powf balance weight ;;
      inv' <- U128.mul_down invariant r ;;
      invariant_loop bs ws inv'
  | _, _ => Ok invariant
  end.

(** weighted.rs [calc_invariant] *)
Definition calc_invariant (balances weights : list Z) : result Z :=
  if negb (length balances =? length weights)%nat || (length balances =? 0)%nat
  then Err InvalidAmount
  else
    invariant <- invariant_loop balances weights ONE ;;
    if 0 <? invariant then Ok invariant else Err InvalidAmount.

(** weighted.rs [calc_out_given_in] *)
Definition calc_out_given_in (balance_in weight_in balance_out weight_out amount_in : Z)
  : result Z :=
  s <- ok_or (checked_add U128_MAX1 balance_in amount_in) MathOverflow ;;
  base <- U128.div_up balance_in s ;;
  exponent <- U128.div_down weight_in weight_out ;;
  power <- Pow.pow_up powf base exponent ;;
  let complement := U128.complement power in
  amount_out <- U128.mul_down balance_out complement ;;
  Ok amount_out.

(** weighted.rs [calc_in_given_out] *)
Definition calc_in_given_out (balance_in weight_in balance_out weight_out amount_out : Z)
  : result Z :=
  d <- ok_or (checked_sub U128_MAX1 balance_out amount_out) MathOverflow ;;
  base <- U128.div_up balance_out d ;;
  exponent <- U128.div_up weight_out weight_in ;;
  power <- Pow.pow_up powf base exponent ;;
  complement <- ok_or (checked_sub U128_MAX1 power ONE) MathOverflow ;;
  amount_in <- U128.mul_up balance_in complement ;;
  Ok amount_in.

(** weighted.rs [calc_lp_to_mint] *)
Definition calc_lp_to_mint (lp_supply k_new k_old sum_of_weights : Z) : result Z :=
  base <- U128.div_down k_new k_old ;;
  base_pow <- Pow.pow_down powf base sum_of_weights ;;
  right <- ok_or (checked_sub U128_MAX1 base_pow ONE) MathOverflow ;;
  net_minted <- U128.mul_down lp_supply right ;;
  Ok net_minted.
End WithPowF.
End Weighted.

(* ------------------------------------------------------------------ *)
(** ** stable.rs *)

(** The bounded Newton-Raphson loop shared by both solvers of stable.rs:
    [for _ in 0..limit { let next = step(prev)?; if converged(prev, next)
    { return finish(next) } prev = next } None]. *)
Section BoundedNewton.
Variable step : Z -> option Z.
Variable converged : Z -> Z -> bool.
Variable finish : Z -> option Z.

Fixpoint bounded_newton (limit : nat) (prev : Z) : option Z :=
  match limit with
  | O => None
  | S limit' =>
      next <-? step prev ;;
      if converged prev next then finish next else bounded_newton limit' next
  end.

(** [k] steps of the loop body, without the convergence test *)
Fixpoint iterate (k : nat) (x : Z) : option Z :=
  match k with
  | O => Some x
  | S k' => x' <-? step x ;; iterate k' x'
  end.
End BoundedNewton.

Module Stable.

Definition AMP_PRECISION : Z := 1000.
Definition MIN_AMP : Z := 1.
Definition MAX_AMP : Z := 10000.
Definition MAX_LOOP_LIMIT : nat := 256.
Definition DEFAULT_INV_THRESHOLD : Z := 100.
Definition BALANCE_THRESHOLD : Z := 1.
(** the iteration bound of the balance solver ([for _ in 0..64]) *)
Definition BALANCE_LOOP_LIMIT : nat := 64.

(** The [bn] crate's [U192] operations used by stable.rs ([bn] is an external
    crate): checked arithmetic at 192 bits; [checked_mul_div_down/up(a, b, c)]
    is [a * b / c] rounded down/up, [None] on a zero divisor or a quotient
    beyond 192 bits; [as_u64] narrows, [None] beyond 64 bits; [<< 1] drops
    the bit shifted out. *)
Definition add192 := checked_add U192_MAX1.
Definition sub192 := checked_sub U192_MAX1.
Definition mul192 := checked_mul U192_MAX1.
Definition div192 := checked_div.
Definition div_up192 (a b : Z) : option Z :=
  if b =? 0 then None else fits U192_MAX1 ((a + b - 1) / b).
Definition mul_div_down (a b c : Z) : option Z :=
  if c =? 0 then None else fits U192_MAX1 (a * b / c).
Definition mul_div_up (a b c : Z) : option Z :=
  if c =? 0 then None else fits U192_MAX1 ((a * b + c - 1) / c).
Definition as_u64 (x : Z) : option Z := fits U64_MAX1 x.
Definition shl1_192 (x : Z) : Z := (x * 2) mod U192_MAX1.

(** [balances.iter().sum()] on [u64]: an overflow aborts the program
    (overflow checks), modelled as a failure. *)
Fixpoint sum_loop (acc : Z) (bs : list Z) : option Z :=
  match bs with
  | [] => Some acc
  | b :: bs' => acc' <-? checked_add U64_MAX1 acc b ;; sum_loop acc' bs'
  end.
Definition sum_u64 (bs : list Z) : option Z := sum_loop 0 bs.

(** [balances[i]]: an out-of-range index panics, modelled as a failure *)
Definition index (bs : list Z) (i : nat) : option Z := nth_error bs i.

(** [v[i] = x] on a [Vec] built by [to_vec] (panics out of range) *)
Fixpoint set_index (bs : list Z) (i : nat) (x : Z) : option (list Z) :=
  match bs, i with
  | [], _ => None
  | _ :: bs', O => Some (x :: bs')
  | b :: bs', S i' => obind (set_index bs' i' x) (fun r => Some (b :: r))
  end.

(** [let diff = if d_new > d { d_new - d } else { d - d_new }] *)
Definition abs_diff (a b : Z) : Z := if b <? a then a - b else b - a.

(** [for &balance in balances { dp = dp.checked_mul_div_down(d, n * balance)? }] *)
Fixpoint dp_loop (n d : Z) (balances : list Z) (dp : Z) : option Z :=
  match balances with
  | [] => Some dp
  | balance :: bs =>
      nb <-? mul192 n balance ;;
      dp' <-? mul_div_down dp d nb ;;
      dp_loop n d bs dp'
  end.

(** One iteration of the loop body of [calc_invariant]: [d] to [d_new]. *)
Definition invariant_step (ann sum n : Z) (balances : list Z) (d : Z) : option Z :=
  dp <-? dp_loop n d balances d ;;
  let amp_prec := AMP_PRECISION in
  t1 <-? mul192 ann sum ;;
  t2 <-? mul192 n dp ;;
  t3 <-? mul192 t2 amp_prec ;;
  num <-? add192 t1 t3 ;;
  u1 <-? sub192 ann amp_prec ;;
  u2 <-? mul192 u1 d ;;
  n1 <-? add192 n 1 ;;
  u3 <-? mul192 n1 dp ;;
  u4 <-? mul192 u3 amp_prec ;;
  den <-? add192 u2 u4 ;;
  nd <-? mul192 num d ;;
  div192 nd den.

Definition invariant_converged (d d_new : Z) : bool :=
  abs_diff d_new d <=? DEFAULT_INV_THRESHOLD.

(** stable.rs [calc_invariant] *)
Definition calc_invariant (amp : Z) (balances : list Z) : option Z :=
  let n := Z.of_nat (length balances) in
  sum <-? sum_u64 balances ;;
  if sum =? 0 then Some 0 else
  ann <-? checked_mul U64_MAX1 amp n ;;
  bounded_newton (invariant_step ann sum n balances) invariant_converged as_u64
    MAX_LOOP_LIMIT sum.

(** The [for i in 1..balances.len()] loop of
    [get_token_balance_given_invariant_and_others]: running product [p]
    (rescaled by the invariant at each step) and running sum. *)
Fixpoint prod_sum_loop (num_tokens invariant : Z) (rest : list Z) (p sum : Z)
  : option (Z * Z) :=
  match rest with
  | [] => Some (p, sum)
  | bi :: rest' =>
      p_i <-? checked_mul U64_MAX1 bi num_tokens ;;
      p' <-? mul_div_down p p_i invariant ;;
      sum' <-? checked_add U64_MAX1 sum bi ;;
      prod_sum_loop num_tokens invariant rest' p' sum'
  end.

(** One iteration of the balance solver: [y = (y^2 + c) / (2y + b - D)]
    rounded up, followed by the two [as_u64()?] narrowings. *)
Definition balance_step (b c invariant : Z) (token_balance : Z) : option Z :=
  let prev_token_balance := token_balance in
  sq <-? mul192 token_balance token_balance ;;
  numer <-? add192 sq c ;;
  t <-? add192 (shl1_192 token_balance) b ;;
  denom <-? sub192 t invariant ;;
  tb <-? div_up192 numer denom ;;
  tb64 <-? as_u64 tb ;;
  _prev64 <-? as_u64 prev_token_balance ;;
  Some tb64.

(** [if tb > prev { tb - prev <= 1 } else { prev - tb <= 1 }] *)
Definition balance_converged (prev tb : Z) : bool :=
  if prev <? tb then saturating_sub tb prev <=? BALANCE_THRESHOLD
  else saturating_sub prev tb <=? BALANCE_THRESHOLD.

(** The part of [get_token_balance_given_invariant_and_others] before its
    loop: the coefficients [b] and [c] of the recurrence and the initial
    approximation [(D^2 + c) / (D + b)]. *)
Definition balance_solver_init
  (amp : Z) (balances : list Z) (invariant : Z) (token_index : nat) : option (Z * Z * Z) :=
  let num_tokens := Z.of_nat (length balances) in
  amp_times_total <-? checked_mul U64_MAX1 amp num_tokens ;;
  b0 <-? index balances 0 ;;
  p0 <-? checked_mul U64_MAX1 b0 num_tokens ;;
  ps <-? prod_sum_loop num_tokens invariant (tl balances) p0 b0 ;;
  let (p, sum0) := ps in
  balance <-? index balances token_index ;;
  let sum := saturating_sub sum0 balance in
  invariant_2 <-? mul192 invariant invariant ;;
  ap <-? mul192 amp_times_total p ;;
  c0 <-? mul_div_up invariant_2 AMP_PRECISION ap ;;
  c <-? mul192 c0 balance ;;
  b1 <-? mul_div_down invariant AMP_PRECISION amp_times_total ;;
  b <-? add192 b1 sum ;;
  numer <-? add192 invariant_2 c ;;
  denom <-? add192 invariant b ;;
  token_balance <-? div_up192 numer denom ;;
  Some (b, c, token_balance).

(** stable.rs [get_token_balance_given_invariant_and_others] *)
Definition get_token_balance_given_invariant_and_others
  (amp : Z) (balances : list Z) (invariant : Z) (token_index : nat) : option Z :=
  init <-? balance_solver_init amp balances invariant token_index ;;
  let '(b, c, token_balance) := init in
  bounded_newton (balance_step b c invariant) balance_converged Some
    BALANCE_LOOP_LIMIT token_balance.

(** stable.rs [calc_out_given_in] *)
Definition calc_out_given_in (amp : Z) (balances : list Z)
  (token_index_in token_index_out : nat) (amount_in : Z) : option Z :=
  invariant <-? calc_invariant amp balances ;;
  bin <-? index balances token_index_in ;;
  bin' <-? checked_add U64_MAX1 bin amount_in ;;
  new_balances <-? set_index balances token_index_in bin' ;;
  balance_out <-? index balances token_index_out ;;
  final_balance_out <-? get_token_balance_given_invariant_and_others
                          amp new_balances invariant token_index_out ;;
  r <-? checked_sub U64_MAX1 balance_out final_balance_out ;;
  checked_sub U64_MAX1 r 1.

(** stable.rs [calc_in_given_out] *)
Definition calc_in_given_out (amp : Z) (balances : list Z)
  (token_index_in token_index_out : nat) (amount_out : Z) : option Z :=
  invariant <-? calc_invariant amp balances ;;
  bout <-? index balances token_index_out ;;
  bout' <-? checked_sub U64_MAX1 bout amount_out ;;
  new_balances <-? set_index balances token_index_out bout' ;;
  balance_in <-? index balances token_index_in ;;
  final_balance_in <-? get_token_balance_given_invariant_and_others
                         amp new_balances invariant token_index_in ;;
  r <-? checked_sub U64_MAX1 final_balance_in balance_in ;;
  checked_add U64_MAX1 r 1.

(** The per-balance body of [calc_tokens_out_proportional]:
    [u64::try_from(balance as u128 * lp_amount_in as u128 / lp_supply as u128)] *)
Definition token_out_proportional (lp_amount_in lp_supply balance : Z) : option Z :=
  m <-? checked_mul U128_MAX1 balance lp_amount_in ;;
  amount <-? checked_div m lp_supply ;;
  fits U64_MAX1 amount.

Fixpoint tokens_out_loop (lp_amount_in lp_supply : Z) (balances : list Z)
  : option (list Z) :=
  match balances with
  | [] => Some []
  | balance :: bs =>
      amount <-? token_out_proportional lp_amount_in lp_supply balance ;;
      rest <-? tokens_out_loop lp_amount_in lp_supply bs ;;
      Some (amount :: rest)
  end.

(** stable.rs [calc_tokens_out_proportional] *)
Definition calc_tokens_out_proportional (balances : list Z) (lp_amount_in lp_supply : Z)
  : option (list Z) :=
  tokens_out_loop lp_amount_in lp_supply balances.

(** The per-balance body of [calc_tokens_in_proportional]:
    [(balance * lp_amount_out + (lp_supply - 1)) / lp_supply], narrowed to
    u64.  [lp_supply as u128 - 1] fails for a zero supply (an overflow
    panic; with wrapping arithmetic the division by zero that follows fails
    as well). *)
Definition token_in_proportional (lp_amount_out lp_supply balance : Z) : option Z :=
  m <-? checked_mul U128_MAX1 balance lp_amount_out ;;
  supply_minus_one <-? checked_sub U128_MAX1 lp_supply 1 ;;
  s <-? checked_add U128_MAX1 m supply_minus_one ;;
  amount <-? checked_div s lp_supply ;;
  fits U64_MAX1 amount.

Fixpoint tokens_in_loop (lp_amount_out lp_supply : Z) (balances : list Z)
  : option (list Z) :=
  match balances with
  | [] => Some []
  | balance :: bs =>
      amount <-? token_in_proportional lp_amount_out lp_supply balance ;;
      rest <-? tokens_in_loop lp_amount_out lp_supply bs ;;
      Some (amount :: rest)
  end.

(** stable.rs [calc_tokens_in_proportional] *)
Definition calc_tokens_in_proportional (balances : list Z) (lp_amount_out lp_supply : Z)
  : option (list Z) :=
  tokens_in_loop lp_amount_out lp_supply balances.

(** [Result::ok()] *)
Definition res_ok {A} (r : result A) : option A :=
  match r with Ok a => Some a | Err _ => None end.

(** [for i in 0..balances.len() { push(balances[i].checked_add(amounts_in[i])?) }]
    ([amounts_in[i]] panics when [amounts_in] is shorter) *)
Fixpoint add_amounts (balances amounts_in : list Z) : option (list Z) :=
  match balances, amounts_in with
  | [], _ => Some []
  | b :: bs, a :: as_ =>
      nb <-? checked_add U64_MAX1 b a ;;
      rest <-? add_amounts bs as_ ;;
      Some (nb :: rest)
  | _ :: _, [] => None
  end.

(** stable.rs [calc_lp_tokens_for_deposit_simple] *)
Definition calc_lp_tokens_for_deposit_simple (amp : Z) (balances amounts_in : list Z)
  (lp_supply : Z) : option Z :=
  current_d <-? calc_invariant amp balances ;;
  new_balances <-? add_amounts balances amounts_in ;;
  new_d <-? calc_invariant amp new_balances ;;
  m <-? checked_mul U128_MAX1 lp_supply new_d ;;
  q <-? checked_div m current_d ;;
  lp_out <-? checked_sub U128_MAX1 q lp_supply ;;
  fits U64_MAX1 lp_out.

(** Step 2 of [calc_lp_tokens_for_deposit_with_fee]: the deposit ratio of
    every token and the balance-weighted average ratio [ideal_ratio]. *)
Fixpoint ratio_loop (sum : Z) (balances amounts_in : list Z) (ideal_ratio : Z)
  : option (list Z * Z) :=
  match balances, amounts_in with
  | [], _ => Some ([], ideal_ratio)
  | b :: bs, a :: as_ =>
      new_balance <-? checked_add U64_MAX1 b a ;;
      ratio <-? res_ok (U64.div_down new_balance b) ;;
      weight <-? res_ok (U64.div_down b sum) ;;
      rw <-? res_ok (U64.mul_down ratio weight) ;;
      ideal' <-? checked_add U64_MAX1 ideal_ratio rw ;;
      rest <-? ratio_loop sum bs as_ ideal' ;;
      let '(ratios, ideal) := rest in
      Some (ratio :: ratios, ideal)
  | _ :: _, [] => None
  end.

(** The amount of one token credited to the pool in Step 3: the part of
    the deposit beyond the ideal ratio is charged [swap_fee]. *)
Definition amount_in_without_fee (ideal_ratio swap_fee balance amount_in ratio : Z)
  : option Z :=
  if ideal_ratio <? ratio then
    non_taxable <-? res_ok (U64.mul_down balance (saturating_sub ideal_ratio ONE_U64)) ;;
    let taxable := saturating_sub amount_in non_taxable in
    t <-? res_ok (U64.mul_down taxable (U64.complement swap_fee)) ;;
    checked_add U64_MAX1 t non_taxable
  else Some amount_in.

(** Step 3 of [calc_lp_tokens_for_deposit_with_fee] *)
Fixpoint fee_loop (ideal_ratio swap_fee : Z) (balances amounts_in ratios : list Z)
  : option (list Z) :=
  match balances, amounts_in, ratios with
  | [], _, _ => Some []
  | b :: bs, a :: as_, r :: rs =>
      w <-? amount_in_without_fee ideal_ratio swap_fee b a r ;;
      nb <-? checked_add U64_MAX1 b w ;;
      rest <-? fee_loop ideal_ratio swap_fee bs as_ rs ;;
      Some (nb :: rest)
  | _, _, _ => None
  end.

(** Steps 1 to 3 of [calc_lp_tokens_for_deposit_with_fee]: the
    fee-adjusted balances the new invariant is computed from. *)
Definition fee_adjusted_balances (balances amounts_in : list Z) (swap_fee : Z)
  : option (list Z) :=
  sum <-? sum_u64 balances ;;
  ri <-? ratio_loop sum balances amounts_in 0 ;;
  let '(balance_ratios, ideal_ratio) := ri in
  fee_loop ideal_ratio swap_fee balances amounts_in balance_ratios.

(** stable.rs [calc_lp_tokens_for_deposit_with_fee] *)
Definition calc_lp_tokens_for_deposit_with_fee (amp : Z) (balances amounts_in : list Z)
  (lp_supply current_invariant swap_fee : Z) : option Z :=
  new_balances <-? fee_adjusted_balances balances amounts_in swap_fee ;;
  new_invariant <-? calc_invariant amp new_balances ;;
  ratio <-? res_ok (U64.div_down new_invariant current_invariant) ;;
  if ONE_U64 <? ratio then res_ok (U64.mul_down lp_supply (saturating_sub ratio ONE_U64))
  else Some 0.

(** stable.rs [calc_token_out_for_lp_burn] *)
Definition calc_token_out_for_lp_burn (amp : Z) (balances : list Z) (token_index : nat)
  (lp_amount_in lp_supply current_invariant swap_fee : Z) : option Z :=
  remaining <-? checked_sub U64_MAX1 lp_supply lp_amount_in ;;
  m <-? checked_mul U128_MAX1 current_invariant remaining ;;
  ni <-? checked_div m lp_supply ;;
  new_invariant <-? fits U64_MAX1 ni ;;
  balance <-? index balances token_index ;;
  new_balance <-? get_token_balance_given_invariant_and_others
                    amp balances new_invariant token_index ;;
  amount_out_without_fee <-? checked_sub U64_MAX1 balance new_balance ;;
  sum <-? sum_u64 balances ;;
  current_weight <-? res_ok (U64.div_down balance sum) ;;
  let taxable_percentage := U64.complement current_weight in
  taxable_amount <-? res_ok (U64.mul_up amount_out_without_fee taxable_percentage) ;;
  let non_taxable_amount := saturating_sub amount_out_without_fee taxable_amount in
  t <-? res_ok (U64.mul_down taxable_amount (U64.complement swap_fee)) ;;
  checked_add U64_MAX1 t non_taxable_amount.

End Stable.

(* ------------------------------------------------------------------ *)
(** ** state/pool.rs *)

Module PoolToken.
(** [PoolToken::scale_amount_up]: [raw_amount.checked_mul(scaling_factor).unwrap()]
    (the [unwrap] panics, modelled as a failure) *)
Definition scale_amount_up (scaling_factor raw_amount : Z) : option Z :=
  checked_mul U64_MAX1 raw_amount scaling_factor.

(** [PoolToken::scale_amount_down]: [scaled_amount.checked_div(scaling_factor).unwrap()] *)
Definition scale_amount_down (scaling_factor scaled_amount : Z) : option Z :=
  checked_div scaled_amount scaling_factor.
End PoolToken.

(* ================================================================== *)
(** * Properties *)

(** Unfold the checked machine operations in the hypotheses and split on
    every range test and zero test they perform. *)
Ltac split_checks :=
  repeat match goal with
  | H : context [if ?c then _ else _] |- _ => destruct c eqn:?
  | H : context [match ?m with Some _ => _ | None => _ end] |- _ =>
      destruct m eqn:?
  | H : Some _ = Some _ |- _ => injection H as H
  | H : Ok _ = Ok _ |- _ => injection H as H
  | H : None = Some _ |- _ => discriminate H
  | H : Err _ = Ok _ |- _ => discriminate H
  | H : in_width _ _ = true |- _ => unfold in_width in H; apply andb_true_iff in H;
                                  destruct H as [? ?]
  | H : (_ <=? _) = true |- _ => apply Z.leb_le in H
  | H : (_ <? _) = true |- _ => apply Z.ltb_lt in H
  | H : (_ =? _) = true |- _ => apply Z.eqb_eq in H
  | H : (_ =? _) = false |- _ => apply Z.eqb_neq in H
  end.

Ltac unfold_fixed :=
  unfold U128.div_down, U128.div_up, U128.mul_down, U128.mul_up,
         U64.div_down, U64.div_up, U64.mul_down, U64.mul_up,
         rbind, ok_or, obind, checked_add, checked_mul, checked_div, fits in *.

Section FixedRounding.

Lemma div_up_ceiling (n b : Z) : 0 < b -> n <= (n + (b - 1)) / b * b.
Proof. intros Hb. Z.div_mod_to_equations. nia. Qed.

Lemma div_down_floor (n b : Z) : 0 < b -> n / b * b <= n.
Proof. intros Hb. rewrite Z.mul_comm. apply Z.mul_div_le. exact Hb. Qed.

End FixedRounding.

(** ** C1 *)

(** C1: the stable [calc_invariant] reproduces the reference values:
    amp 5,000,000 on [40e15; 60e15] gives 99999583421855646, amp 750,000 on
    [40e15; 50e15; 60e15] gives 149997226126050479, and amp 150,000 on
    [40e15; 50e15; 60e15; 70e15] gives 219967475585041316. *)
Theorem stable_calc_invariant_reference_values :
  Stable.calc_invariant 5000000 [40000000000000000; 60000000000000000]
    = Some 99999583421855646 /\
  Stable.calc_invariant 750000 [40000000000000000; 50000000000000000; 60000000000000000]
    = Some 149997226126050479 /\
  Stable.calc_invariant 150000
    [40000000000000000; 50000000000000000; 60000000000000000; 70000000000000000]
    = Some 219967475585041316.
Proof. repeat split; vm_compute; reflexivity. Qed.

(** ** C2 *)

(** C2: the stable [calc_out_given_in] with amp 5,000,000 on balances
    [894520800000000; 467581800000000], from token 0 to token 1, returns
    999845351779, 999845869 and 999845 for amounts in 10^12, 10^9 and
    10^6. *)
Theorem stable_calc_out_given_in_reference_values :
  Stable.calc_out_given_in 5000000 [894520800000000; 467581800000000] 0 1 1000000000000
    = Some 999845351779 /\
  Stable.calc_out_given_in 5000000 [894520800000000; 467581800000000] 0 1 1000000000
    = Some 999845869 /\
  Stable.calc_out_given_in 5000000 [894520800000000; 467581800000000] 0 1 1000000
    = Some 999845.
Proof. repeat split; vm_compute; reflexivity. Qed.

(** ** C4 *)

(** C4: the weighted [calc_out_given_in] succeeds with [r] exactly when
    each step of [mul_down(balance_out, complement(pow_up(div_up(balance_in,
    balance_in + amount_in), div_down(weight_in, weight_out))))] succeeds
    (the sum not overflowing u128) and the composition yields [r]; the
    ratio is rounded up, the exponent down, the power up and the final
    product down. *)
Theorem weighted_out_given_in_composition powf bi wi bo wo a r :
  Weighted.calc_out_given_in powf bi wi bo wo a = Ok r <->
  exists base exponent power,
    checked_add U128_MAX1 bi a = Some (bi + a) /\
    U128.div_up bi (bi + a) = Ok base /\
    U128.div_down wi wo = Ok exponent /\
    Pow.pow_up powf base exponent = Ok power /\
    U128.mul_down bo (U128.complement power) = Ok r.
Proof.
  unfold Weighted.calc_out_given_in, rbind, ok_or. split.
  - destruct (checked_add U128_MAX1 bi a) as [s|] eqn:Hs; [|discriminate].
    assert (s = bi + a) as ->.
    { unfold checked_add, fits in Hs. destruct (in_width _ _); congruence. }
    destruct (U128.div_up bi (bi + a)) as [base|] eqn:Hb; [|discriminate].
    destruct (U128.div_down wi wo) as [e|] eqn:He; [|discriminate].
    destruct (Pow.pow_up powf base e) as [p|] eqn:Hp; [|discriminate].
    destruct (U128.mul_down bo (U128.complement p)) as [o|] eqn:Ho; [|discriminate].
    intros H; injection H as <-. exists base, e, p. auto.
  - intros (base & e & p & Hs & Hb & He & Hp & Ho).
    rewrite Hs, Hb, He, Hp, Ho. reflexivity.
Qed.

(** ** C8 *)

(** C8: for all non-negative [a] and [b], at both widths (u128 and u64):
    a successful [div_down(a, b)] is at most the exact quotient
    [a * SCALE / b] (written [x * b <= a * SCALE], with [b > 0]), a
    successful [div_up(a, b)] is at least it, and when [mul_down(a, b)] and
    [mul_up(a, b)] both succeed, [mul_down <= mul_up <= mul_down + 1]. *)
Theorem fixed_rounding_brackets (a b : Z) :
  0 <= a -> 0 <= b ->
  (forall x, U128.div_down a b = Ok x -> 0 < b /\ x * b <= a * SCALE) /\
  (forall y, U128.div_up a b = Ok y -> 0 < b /\ a * SCALE <= y * b) /\
  (forall x y, U128.mul_down a b = Ok x -> U128.mul_up a b = Ok y ->
     x <= y <= x + 1) /\
  (forall x, U64.div_down a b = Ok x -> 0 < b /\ x * b <= a * ONE_U64) /\
  (forall y, U64.div_up a b = Ok y -> 0 < b /\ a * ONE_U64 <= y * b) /\
  (forall x y, U64.mul_down a b = Ok x -> U64.mul_up a b = Ok y ->
     x <= y <= x + 1).
Proof.
  intros Ha Hb.
  repeat split; intros; unfold_fixed; split_checks; subst;
    try lia;
    try (apply div_down_floor; lia);
    try (apply div_up_ceiling; lia);
    try (unfold ONE_U64, SCALE in *; Z.div_mod_to_equations; lia).
Qed.

(** Witness of C8 at a = 3, b = 7. *)
Lemma fixed_rounding_brackets_witness :
  0 <= 3 /\ 0 <= 7 /\
  (forall x, U128.div_down 3 7 = Ok x -> 0 < 7 /\ x * 7 <= 3 * SCALE).
Proof.
  split; [lia|]. split; [lia|].
  exact (proj1 (fixed_rounding_brackets 3 7 ltac:(lia) ltac:(lia))).
Defined.

(** ** C10 *)

Lemma token_out_proportional_full (s b : Z) :
  0 < s < U64_MAX1 -> u64 b -> Stable.token_out_proportional s s b = Some b.
Proof.
  intros Hs Hb. unfold u64, U64_MAX1 in *.
  unfold Stable.token_out_proportional, obind, checked_mul, checked_div, fits, in_width.
  assert (Hm : 0 <= b * s < U128_MAX1).
  { replace U128_MAX1 with (2 ^ 64 * 2 ^ 64) by reflexivity.
    split; [lia|]. apply Z.mul_lt_mono_nonneg; lia. }
  destruct Hm as [Hm1 Hm2].
  rewrite (proj2 (Z.leb_le 0 (b * s)) Hm1), (proj2 (Z.ltb_lt _ _) Hm2). simpl.
  rewrite (proj2 (Z.eqb_neq s 0)) by lia.
  rewrite Z.div_mul by lia.
  unfold U64_MAX1. rewrite (proj2 (Z.leb_le 0 b)) by lia. rewrite (proj2 (Z.ltb_lt b _)) by lia.
  reflexivity.
Qed.

(** C10: for any u64 balances and any u64 supply [lp_supply > 0],
    [calc_tokens_out_proportional(balances, lp_supply, lp_supply)] returns
    the balances themselves: burning the whole supply withdraws every
    balance exactly. *)
Theorem tokens_out_proportional_full_exit (balances : list Z) (lp_supply : Z) :
  Forall u64 balances -> 0 < lp_supply < U64_MAX1 ->
  Stable.calc_tokens_out_proportional balances lp_supply lp_supply = Some balances.
Proof.
  intros Hb Hs. unfold Stable.calc_tokens_out_proportional.
  induction Hb as [|b bs Hb1 Hbs IH]; [reflexivity|].
  simpl. rewrite token_out_proportional_full by assumption.
  simpl. rewrite IH. reflexivity.
Qed.

(** Witness of C10 on the balances of the proportional-withdraw test. *)
Lemma tokens_out_proportional_full_exit_witness :
  Stable.calc_tokens_out_proportional [1000000000000; 2000000000000]
    3000000000000 3000000000000 = Some [1000000000000; 2000000000000].
Proof.
  apply tokens_out_proportional_full_exit.
  - repeat constructor; unfold u64, U64_MAX1; lia.
  - unfold U64_MAX1; lia.
Defined.

(** ** C5 *)

(** C5: whenever the stable [calc_in_given_out] succeeds with [r], [r] is
    [new_balance_in - old_balance_in + 1], where [new_balance_in] is the
    balance solved for token [idx_in] at the invariant of the original
    balances, after [amount_out] is taken from [balances[idx_out]]; and
    [r >= 1]. *)
Theorem stable_in_given_out_margin amp balances idx_in idx_out amount_out r :
  Stable.calc_in_given_out amp balances idx_in idx_out amount_out = Some r ->
  exists invariant balance_out new_balances balance_in new_balance_in,
    Stable.calc_invariant amp balances = Some invariant /\
    Stable.index balances idx_out = Some balance_out /\
    Stable.set_index balances idx_out (balance_out - amount_out) = Some new_balances /\
    Stable.get_token_balance_given_invariant_and_others amp new_balances invariant idx_in
      = Some new_balance_in /\
    Stable.index balances idx_in = Some balance_in /\
    r = new_balance_in - balance_in + 1 /\ 1 <= r.
Proof.
  unfold Stable.calc_in_given_out, obind.
  destruct (Stable.calc_invariant amp balances) as [inv|] eqn:Hinv; [|discriminate].
  destruct (Stable.index balances idx_out) as [bout|] eqn:Hout; [|discriminate].
  destruct (checked_sub U64_MAX1 bout amount_out) as [bout'|] eqn:Hsub; [|discriminate].
  assert (bout' = bout - amount_out) as ->.
  { unfold checked_sub, fits in Hsub. destruct (in_width _ _); congruence. }
  destruct (Stable.set_index balances idx_out (bout - amount_out)) as [nb|] eqn:Hnb;
    [|discriminate].
  destruct (Stable.index balances idx_in) as [bin|] eqn:Hin; [|discriminate].
  destruct (Stable.get_token_balance_given_invariant_and_others amp nb inv idx_in)
    as [fin|] eqn:Hfin; [|discriminate].
  intros H. exists inv, bout, nb, bin, fin.
  unfold checked_sub, checked_add, fits in H. split_checks. subst.
  repeat split; auto; lia.
Qed.

(** Witness of C5: 100e9 of token 1 out of the test pool costs
    100015420477 of token 0. *)
Lemma stable_in_given_out_margin_witness :
  Stable.calc_in_given_out 5000000 [894520800000000; 467581800000000] 0 1 100000000000
    = Some 100015420477 /\
  exists invariant balance_out new_balances balance_in new_balance_in,
    Stable.calc_invariant 5000000 [894520800000000; 467581800000000] = Some invariant /\
    Stable.index [894520800000000; 467581800000000] 1 = Some balance_out /\
    Stable.set_index [894520800000000; 467581800000000] 1 (balance_out - 100000000000)
      = Some new_balances /\
    Stable.get_token_balance_given_invariant_and_others 5000000 new_balances invariant 0
      = Some new_balance_in /\
    Stable.index [894520800000000; 467581800000000] 0 = Some balance_in /\
    100015420477 = new_balance_in - balance_in + 1 /\ 1 <= 100015420477.
Proof.
  split; [vm_compute; reflexivity|].
  apply stable_in_given_out_margin. vm_compute. reflexivity.
Defined.

(** ** C6 *)

(** An integer fast-path weight of [pow_down]: 1.0, 2.0, 3.0 or 4.0. *)
Definition fast_weight (w : Z) : Prop := w = ONE \/ w = TWO \/ w = THREE \/ w = FOUR.

Lemma pow_down_zero_fast powf w : fast_weight w -> Pow.pow_down powf 0 w = Ok 0.
Proof. intros [ -> | [ -> | [ -> | -> ]]]; reflexivity. Qed.

Lemma mul_down_zero_r (a : Z) : u128 a -> U128.mul_down a 0 = Ok 0.
Proof.
  intros [Ha1 Ha2]. unfold U128.mul_down, checked_mul, fits, in_width, obind, ok_or.
  rewrite Z.mul_0_r. reflexivity.
Qed.

Lemma invariant_loop_zeros powf bs ws acc :
  Forall (fun b => b = 0) bs -> Forall fast_weight ws -> u128 acc ->
  length bs = length ws ->
  Weighted.invariant_loop powf bs ws acc = Ok (if (length bs =? 0)%nat then acc else 0).
Proof.
  intros Hb. revert ws acc.
  induction Hb as [|b bs Hb0 Hbs IH]; intros ws acc Hw Hacc Hlen.
  - destruct ws; reflexivity.
  - destruct ws as [|w ws]; [discriminate|]. inversion Hw as [|? ? Hw0 Hws]; subst.
    simpl. rewrite pow_down_zero_fast by assumption. simpl.
    rewrite mul_down_zero_r by assumption. simpl.
    rewrite IH by (try assumption; try (unfold u128, U128_MAX1; lia); simpl in Hlen; lia).
    destruct (length bs =? 0)%nat; reflexivity.
Qed.

(** C6 (as the code has it): the weighted [calc_invariant] fails with
    InvalidAmount on empty or length-mismatched balances/weights, never
    returns [Ok 0], and fails with InvalidAmount on all-zero balances whose
    weights are integer fast-path exponents (1.0 to 4.0); the stable
    [calc_invariant] has no such check: it returns [Some 0] whenever the
    balance sum is 0, in particular for an empty or an all-zero array. *)
Theorem engines_reject_degenerate_inputs powf :
  (forall bs ws, (length bs <> length ws \/ bs = []) ->
     Weighted.calc_invariant powf bs ws = Err InvalidAmount) /\
  (forall bs ws, Weighted.calc_invariant powf bs ws <> Ok 0) /\
  (forall bs ws, bs <> [] -> length bs = length ws ->
     Forall (fun b => b = 0) bs -> Forall fast_weight ws ->
     Weighted.calc_invariant powf bs ws = Err InvalidAmount) /\
  (forall amp bs, Forall (fun b => b = 0) bs -> Stable.calc_invariant amp bs = Some 0).
Proof.
  repeat split.
  - intros bs ws [Hl | ->]; unfold Weighted.calc_invariant.
    + apply Nat.eqb_neq in Hl. rewrite Hl. reflexivity.
    + simpl. rewrite orb_true_r. reflexivity.
  - intros bs ws. unfold Weighted.calc_invariant.
    destruct (_ || _); [discriminate|].
    unfold rbind. destruct (Weighted.invariant_loop powf bs ws ONE) as [v|]; [|discriminate].
    destruct (0 <? v) eqn:Hv; [|discriminate].
    apply Z.ltb_lt in Hv. intros H. injection H. lia.
  - intros bs ws Hne Hlen Hb Hw. unfold Weighted.calc_invariant.
    rewrite Hlen, Nat.eqb_refl. destruct bs as [|b bs]; [contradiction|]. simpl.
    rewrite <- Hlen.
    change (rbind (Weighted.invariant_loop powf (b :: bs) ws ONE)
              (fun invariant => if 0 <? invariant then Ok invariant else Err InvalidAmount)
            = Err InvalidAmount).
    rewrite invariant_loop_zeros by (try assumption; unfold u128, ONE, SCALE, U128_MAX1; lia).
    reflexivity.
  - intros amp bs Hb. unfold Stable.calc_invariant, Stable.sum_u64.
    assert (Hs : forall acc, acc = 0 -> Stable.sum_loop acc bs = Some 0).
    { induction Hb as [|b bs' -> _ IH]; intros acc ->; [reflexivity|].
      simpl. apply IH. reflexivity. }
    rewrite Hs by reflexivity. reflexivity.
Qed.

(** Witness of C6: the empty and the mismatched weighted calls, an
    all-zero fast-path weighted call, and an all-zero stable call. *)
Lemma engines_reject_degenerate_inputs_witness :
  Weighted.calc_invariant (fun _ _ => None) [] [] = Err InvalidAmount /\
  Weighted.calc_invariant (fun _ _ => None) [0; 0] [TWO; TWO] = Err InvalidAmount /\
  Stable.calc_invariant 5000000 [0; 0; 0] = Some 0.
Proof.
  destruct (engines_reject_degenerate_inputs (fun _ _ => None)) as (H1 & _ & H3 & H4).
  split; [apply H1; right; reflexivity|]. split.
  - apply H3; [discriminate | reflexivity | repeat constructor | ].
    repeat (apply Forall_cons; [unfold fast_weight; auto |]). apply Forall_nil.
  - apply H4. repeat constructor.
Defined.

(** Counterexample to C6: the stable [calc_invariant] returns 0, not an
    InvalidAmount failure, for an empty and for an all-zero balances
    array; and the weighted one accepts all-zero balances with zero
    weights ([0 ^ 0 = 1]), whatever the power approximation. *)
Lemma engines_reject_degenerate_inputs_counterexample :
  Stable.calc_invariant 5000000 [] = Some 0 /\
  Stable.calc_invariant 5000000 [0; 0] = Some 0 /\
  (fun powf => Weighted.calc_invariant powf [0; 0] [0; 0]) = (fun _ => Ok ONE).
Proof. split; [|split]; reflexivity. Qed.

(** ** C9 *)

Lemma fits_in w x : 0 <= x < w -> fits w x = Some x.
Proof.
  intros [H1 H2]. unfold fits, in_width.
  rewrite (proj2 (Z.leb_le _ _) H1), (proj2 (Z.ltb_lt _ _) H2). reflexivity.
Qed.










(** ** C7 *)

Section BoundedNewtonFacts.
Variable step : Z -> option Z.
Variable converged : Z -> Z -> bool.
Variable finish : Z -> option Z.

(** Every result of the loop is the [finish] of the first converging step,
    reached after fewer than [limit] steps. *)
Lemma bounded_newton_some limit x r :
  bounded_newton step converged finish limit x = Some r ->
  exists k xk xk',
    (k < limit)%nat /\ iterate step k x = Some xk /\ step xk = Some xk' /\
    converged xk xk' = true /\ finish xk' = Some r /\
    (forall j xj xj', (j < k)%nat -> iterate step j x = Some xj ->
       step xj = Some xj' -> converged xj xj' = false).
Proof.
  revert x. induction limit as [|limit IH]; intros x H; [discriminate|].
  simpl in H. unfold obind in H.
  destruct (step x) as [x'|] eqn:Hx; [|discriminate].
  destruct (converged x x') eqn:Hc.
  - exists O, x, x'.
    split; [lia|]. split; [reflexivity|]. split; [exact Hx|].
    split; [exact Hc|]. split; [exact H|].
    intros j xj xj' Hj. lia.
  - destruct (IH x' H) as (k & xk & xk' & Hk & Hit & Hs & Hck & Hf & Hbefore).
    exists (S k), xk, xk'.
    split; [lia|]. split; [simpl; unfold obind; rewrite Hx; exact Hit|].
    split; [exact Hs|]. split; [exact Hck|]. split; [exact Hf|].
    intros [|j] xj xj' Hj Hitj Hsj.
    + simpl in Hitj. injection Hitj as <-. congruence.
    + simpl in Hitj. unfold obind in Hitj. rewrite Hx in Hitj.
      apply (Hbefore j xj xj'); auto; lia.
Qed.

(** The loop returns at the first converging step. *)
Lemma bounded_newton_first limit x k xk xk' :
  (k < limit)%nat -> iterate step k x = Some xk -> step xk = Some xk' ->
  converged xk xk' = true ->
  (forall j xj xj', (j < k)%nat -> iterate step j x = Some xj ->
     step xj = Some xj' -> converged xj xj' = false) ->
  bounded_newton step converged finish limit x = finish xk'.
Proof.
  revert limit x. induction k as [|k IH]; intros limit x Hk Hit Hs Hc Hbefore.
  - destruct limit as [|limit]; [lia|]. simpl in Hit. injection Hit as <-.
    simpl. unfold obind. rewrite Hs, Hc. reflexivity.
  - destruct limit as [|limit]; [lia|]. simpl in Hit |- *. unfold obind in Hit |- *.
    destruct (step x) as [x'|] eqn:Hx; [|discriminate].
    rewrite (Hbefore O x x') by (simpl; auto; lia).
    apply IH; auto; try lia.
    intros j xj xj' Hj Hitj Hsj. apply (Hbefore (S j) xj xj'); try lia; auto.
    simpl. unfold obind. rewrite Hx. exact Hitj.
Qed.

(** When none of the [limit] steps converges, the loop fails. *)
Lemma bounded_newton_exhausted limit x :
  (forall j, (j < limit)%nat -> exists xj xj',
     iterate step j x = Some xj /\ step xj = Some xj' /\ converged xj xj' = false) ->
  bounded_newton step converged finish limit x = None.
Proof.
  revert x. induction limit as [|limit IH]; intros x H; [reflexivity|].
  destruct (H O ltac:(lia)) as (x0 & x' & Hit & Hs & Hc).
  simpl in Hit. injection Hit as <-.
  simpl. unfold obind. rewrite Hs, Hc. apply IH.
  intros j Hj. destruct (H (S j) ltac:(lia)) as (xj & xj' & Hitj & Hsj & Hcj).
  exists xj, xj'. simpl in Hitj. unfold obind in Hitj. rewrite Hs in Hitj. auto.
Qed.
End BoundedNewtonFacts.

Lemma abs_diff_abs a b : Stable.abs_diff a b = Z.abs (a - b).
Proof. unfold Stable.abs_diff. destruct (b <? a) eqn:H; split_checks; lia. Qed.

Lemma invariant_converged_iff d dn :
  Stable.invariant_converged d dn = true <-> Z.abs (dn - d) <= 100.
Proof.
  unfold Stable.invariant_converged. rewrite abs_diff_abs, Z.leb_le. reflexivity.
Qed.

Lemma balance_converged_iff prev tb :
  Stable.balance_converged prev tb = true <-> Z.abs (tb - prev) <= 1.
Proof.
  unfold Stable.balance_converged, saturating_sub, Stable.BALANCE_THRESHOLD.
  destruct (prev <? tb) eqn:H; rewrite Z.leb_le; split_checks;
    try apply Z.ltb_ge in H; lia.
Qed.

Lemma not_converged_iff (f : Z -> Z -> bool) (P : Prop) x y :
  (f x y = true <-> P) -> (f x y = false <-> ~ P).
Proof. intros H. destruct (f x y); split; intuition congruence. Qed.

(** C7: both Newton-Raphson solvers of the stable engine are bounded loops
    (256 steps for the D-solver of [calc_invariant], 64 for the balance
    solver, both within 64..256), with absolute tolerances of 100 and 1 raw
    units.  Every result of [calc_invariant] is either the 0 of an empty
    balance sum or the value of the first step, among the first 256, whose
    distance to its predecessor is within 100; if none of the 256 steps
    converges the call fails ([None], no partial result). Likewise every
    result of the balance solver is the first step, among the first 64,
    within 1 of its predecessor, and 64 non-converging steps make it fail. *)
Theorem stable_solvers_bounded :
  (64 <= Stable.MAX_LOOP_LIMIT <= 256)%nat /\
  (64 <= Stable.BALANCE_LOOP_LIMIT <= 256)%nat /\
  Stable.DEFAULT_INV_THRESHOLD = 100 /\ Stable.BALANCE_THRESHOLD = 1 /\
  (forall amp balances D,
     Stable.calc_invariant amp balances = Some D ->
     (Stable.sum_u64 balances = Some 0 /\ D = 0) \/
     (exists sum ann k dk,
        Stable.sum_u64 balances = Some sum /\ sum <> 0 /\
        checked_mul U64_MAX1 amp (Z.of_nat (length balances)) = Some ann /\
        (k < Stable.MAX_LOOP_LIMIT)%nat /\
        iterate (Stable.invariant_step ann sum (Z.of_nat (length balances)) balances)
          k sum = Some dk /\
        Stable.invariant_step ann sum (Z.of_nat (length balances)) balances dk = Some D /\
        Z.abs (D - dk) <= Stable.DEFAULT_INV_THRESHOLD /\ D < U64_MAX1 /\
        (forall j dj dj', (j < k)%nat ->
           iterate (Stable.invariant_step ann sum (Z.of_nat (length balances)) balances)
             j sum = Some dj ->
           Stable.invariant_step ann sum (Z.of_nat (length balances)) balances dj
             = Some dj' ->
           Stable.DEFAULT_INV_THRESHOLD < Z.abs (dj' - dj)))) /\
  (forall amp balances sum ann,
     Stable.sum_u64 balances = Some sum -> sum <> 0 ->
     checked_mul U64_MAX1 amp (Z.of_nat (length balances)) = Some ann ->
     (forall j, (j < Stable.MAX_LOOP_LIMIT)%nat -> exists dj dj',
        iterate (Stable.invariant_step ann sum (Z.of_nat (length balances)) balances)
          j sum = Some dj /\
        Stable.invariant_step ann sum (Z.of_nat (length balances)) balances dj = Some dj' /\
        Stable.DEFAULT_INV_THRESHOLD < Z.abs (dj' - dj)) ->
     Stable.calc_invariant amp balances = None) /\
  (forall amp balances invariant token_index y,
     Stable.get_token_balance_given_invariant_and_others amp balances invariant token_index
       = Some y ->
     exists b c y0 k yk,
       Stable.balance_solver_init amp balances invariant token_index = Some (b, c, y0) /\
       (k < Stable.BALANCE_LOOP_LIMIT)%nat /\
       iterate (Stable.balance_step b c invariant) k y0 = Some yk /\
       Stable.balance_step b c invariant yk = Some y /\
       Z.abs (y - yk) <= Stable.BALANCE_THRESHOLD /\
       (forall j yj yj', (j < k)%nat ->
          iterate (Stable.balance_step b c invariant) j y0 = Some yj ->
          Stable.balance_step b c invariant yj = Some yj' ->
          Stable.BALANCE_THRESHOLD < Z.abs (yj' - yj))) /\
  (forall amp balances invariant token_index b c y0,
     Stable.balance_solver_init amp balances invariant token_index = Some (b, c, y0) ->
     (forall j, (j < Stable.BALANCE_LOOP_LIMIT)%nat -> exists yj yj',
        iterate (Stable.balance_step b c invariant) j y0 = Some yj /\
        Stable.balance_step b c invariant yj = Some yj' /\
        Stable.BALANCE_THRESHOLD < Z.abs (yj' - yj)) ->
     Stable.get_token_balance_given_invariant_and_others amp balances invariant token_index
       = None).
Proof.
  split; [unfold Stable.MAX_LOOP_LIMIT; lia|].
  split; [unfold Stable.BALANCE_LOOP_LIMIT; lia|].
  split; [reflexivity|]. split; [reflexivity|].
  split; [|split; [|split]].
  - intros amp balances D H. unfold Stable.calc_invariant, obind in H.
    destruct (Stable.sum_u64 balances) as [sum|] eqn:Hs; [|discriminate].
    destruct (sum =? 0) eqn:Hz.
    + left. apply Z.eqb_eq in Hz. subst. injection H as <-. auto.
    + right. apply Z.eqb_neq in Hz.
      destruct (checked_mul U64_MAX1 amp (Z.of_nat (length balances))) as [ann|] eqn:Ha;
        [|discriminate].
      apply bounded_newton_some in H.
      destruct H as (k & dk & dk' & Hk & Hit & Hst & Hc & Hf & Hbefore).
      unfold Stable.as_u64, fits in Hf. split_checks. subst dk'.
      apply invariant_converged_iff in Hc.
      exists sum, ann, k, dk. do 8 (split; [auto|]).
      intros j dj dj' Hj Hitj Hsj.
      pose proof (Hbefore j dj dj' Hj Hitj Hsj) as Hn.
      apply (not_converged_iff _ _ _ _ (invariant_converged_iff dj dj')) in Hn.
      unfold Stable.DEFAULT_INV_THRESHOLD. lia.
  - intros amp balances sum ann Hs Hz Ha Hall.
    unfold Stable.calc_invariant, obind. rewrite Hs.
    apply Z.eqb_neq in Hz. rewrite Hz, Ha.
    apply bounded_newton_exhausted. intros j Hj.
    destruct (Hall j Hj) as (dj & dj' & Hitj & Hsj & Hn).
    exists dj, dj'. split; [exact Hitj|]. split; [exact Hsj|].
    apply (not_converged_iff _ _ _ _ (invariant_converged_iff dj dj')).
    unfold Stable.DEFAULT_INV_THRESHOLD in Hn. lia.
  - intros amp balances invariant token_index y H.
    unfold Stable.get_token_balance_given_invariant_and_others, obind in H.
    destruct (Stable.balance_solver_init amp balances invariant token_index)
      as [[[b c] y0]|] eqn:Hi; [|discriminate].
    apply bounded_newton_some in H.
    destruct H as (k & yk & yk' & Hk & Hit & Hst & Hc & Hf & Hbefore).
    injection Hf as ->. apply balance_converged_iff in Hc.
    exists b, c, y0, k, yk. do 5 (split; [auto|]).
    intros j yj yj' Hj Hitj Hsj.
    pose proof (Hbefore j yj yj' Hj Hitj Hsj) as Hn.
    apply (not_converged_iff _ _ _ _ (balance_converged_iff yj yj')) in Hn.
    unfold Stable.BALANCE_THRESHOLD. lia.
  - intros amp balances invariant token_index b c y0 Hi Hall.
    unfold Stable.get_token_balance_given_invariant_and_others, obind. rewrite Hi.
    apply bounded_newton_exhausted. intros j Hj.
    destruct (Hall j Hj) as (yj & yj' & Hitj & Hsj & Hn).
    exists yj, yj'. split; [exact Hitj|]. split; [exact Hsj|].
    apply (not_converged_iff _ _ _ _ (balance_converged_iff yj yj')).
    unfold Stable.BALANCE_THRESHOLD in Hn. lia.
Qed.

(** Witness of C7 on the two-token reference pool of C1: its invariant is
    reached by a converging step within the bound. *)
Lemma stable_solvers_bounded_witness :
  Stable.calc_invariant 5000000 [40000000000000000; 60000000000000000]
    = Some 99999583421855646 /\
  ((Stable.sum_u64 [40000000000000000; 60000000000000000] = Some 0 /\
    99999583421855646 = 0) \/
   (exists sum ann k dk,
      Stable.sum_u64 [40000000000000000; 60000000000000000] = Some sum /\ sum <> 0 /\
      checked_mul U64_MAX1 5000000 2 = Some ann /\
      (k < Stable.MAX_LOOP_LIMIT)%nat /\
      iterate (Stable.invariant_step ann sum 2 [40000000000000000; 60000000000000000])
        k sum = Some dk /\
      Stable.invariant_step ann sum 2 [40000000000000000; 60000000000000000] dk
        = Some 99999583421855646 /\
      Z.abs (99999583421855646 - dk) <= Stable.DEFAULT_INV_THRESHOLD /\
      99999583421855646 < U64_MAX1 /\
      (forall j dj dj', (j < k)%nat ->
         iterate (Stable.invariant_step ann sum 2 [40000000000000000; 60000000000000000])
           j sum = Some dj ->
         Stable.invariant_step ann sum 2 [40000000000000000; 60000000000000000] dj
           = Some dj' ->
         Stable.DEFAULT_INV_THRESHOLD < Z.abs (dj' - dj)))).
Proof.
  split; [vm_compute; reflexivity|].
  destruct stable_solvers_bounded as (_ & _ & _ & _ & Hsome & _).
  exact (Hsome 5000000 [40000000000000000; 60000000000000000] 99999583421855646
           ltac:(vm_compute; reflexivity)).
Defined.

(* ================================================================== *)
(** * Further properties of the code *)

(** ** Inversion of the checked operations *)

Lemma rbind_ok {A B} (m : result A) (k : A -> result B) r :
  rbind m k = Ok r -> exists x, m = Ok x /\ k x = Ok r.
Proof. unfold rbind. destruct m as [x|e]; [eauto|discriminate]. Qed.

Lemma obind_some {A B} (m : option A) (k : A -> option B) r :
  obind m k = Some r -> exists x, m = Some x /\ k x = Some r.
Proof. unfold obind. destruct m as [x|]; [eauto|discriminate]. Qed.

Lemma ok_or_ok {A} (o : option A) e x : ok_or o e = Ok x -> o = Some x.
Proof. unfold ok_or. destruct o; congruence. Qed.

Lemma res_ok_some {A} (r : result A) x : Stable.res_ok r = Some x -> r = Ok x.
Proof. unfold Stable.res_ok. destruct r; congruence. Qed.

Lemma fits_some w x y : fits w x = Some y -> y = x /\ 0 <= x < w.
Proof.
  unfold fits, in_width. destruct (0 <=? x) eqn:H1, (x <? w) eqn:H2; simpl;
    intros H; try discriminate.
  injection H as <-. split; [reflexivity|]. lia.
Qed.

Lemma checked_div_some a b y : checked_div a b = Some y -> b <> 0 /\ y = a / b.
Proof.
  unfold checked_div. destruct (b =? 0) eqn:Hb; [discriminate|].
  intros H. injection H as <-. split; [lia | reflexivity].
Qed.

(** Peel every [x <- m ;; k], [x <-? m ;; k], [ok_or], [Result::ok],
    [fits] and [checked_div] off the hypotheses. *)
Ltac peel :=
  repeat match goal with
  | H : rbind _ _ = Ok _ |- _ =>
      let x := fresh "x" in let Hx := fresh "Hx" in
      apply rbind_ok in H; destruct H as (x & Hx & H)
  | H : obind _ _ = Some _ |- _ =>
      let x := fresh "x" in let Hx := fresh "Hx" in
      apply obind_some in H; destruct H as (x & Hx & H)
  | H : ok_or _ _ = Ok _ |- _ => apply ok_or_ok in H
  | H : Stable.res_ok _ = Some _ |- _ => apply res_ok_some in H
  | H : fits _ _ = Some _ |- _ =>
      let Hf := fresh "Hf" in apply fits_some in H; destruct H as [? Hf]; subst
  | H : checked_div _ _ = Some _ |- _ =>
      let Hd := fresh "Hd" in apply checked_div_some in H; destruct H as [Hd ?]; subst
  | H : Some _ = Some _ |- _ => injection H as H; subst
  | H : Ok _ = Ok _ |- _ => injection H as H; subst
  end.

Lemma u128_mul_down_ok a b r :
  U128.mul_down a b = Ok r -> 0 <= a * b < U128_MAX1 /\ r = a * b / SCALE.
Proof. unfold U128.mul_down, checked_mul. intros H. peel. auto. Qed.

Lemma u128_mul_up_ok a b r :
  U128.mul_up a b = Ok r ->
  0 <= a * b < U128_MAX1 /\ a * b + (SCALE - 1) < U128_MAX1 /\
  r = (a * b + (SCALE - 1)) / SCALE.
Proof.
  unfold U128.mul_up, checked_mul, checked_add. intros H. peel.
  split; [lia|]. split; [lia|]. reflexivity.
Qed.

Lemma u128_div_down_ok a b r :
  U128.div_down a b = Ok r -> b <> 0 /\ 0 <= a * SCALE < U128_MAX1 /\ r = a * SCALE / b.
Proof.
  unfold U128.div_down, checked_mul. destruct (b =? 0) eqn:Hb; [discriminate|].
  intros H. peel. split; [lia|]. auto.
Qed.

Lemma u128_div_up_ok a b r :
  U128.div_up a b = Ok r ->
  b <> 0 /\ 0 <= a * SCALE < U128_MAX1 /\ 0 <= a * SCALE + (b - 1) < U128_MAX1 /\
  r = (a * SCALE + (b - 1)) / b.
Proof.
  unfold U128.div_up, checked_mul, checked_add. destruct (b =? 0) eqn:Hb; [discriminate|].
  intros H. peel. split; [lia|]. split; [lia|]. split; [lia | reflexivity].
Qed.

Lemma u64_mul_down_ok a b r :
  U64.mul_down a b = Ok r ->
  0 <= a * b < U128_MAX1 /\ r = a * b / ONE_U64 /\ 0 <= r < U64_MAX1.
Proof. unfold U64.mul_down, checked_mul. intros H. peel. auto. Qed.

Lemma u64_mul_up_ok a b r :
  U64.mul_up a b = Ok r ->
  0 <= a * b < U128_MAX1 /\ a * b + (ONE_U64 - 1) < U128_MAX1 /\
  r = (a * b + (ONE_U64 - 1)) / ONE_U64 /\ 0 <= r < U64_MAX1.
Proof.
  unfold U64.mul_up, checked_mul, checked_add. intros H. peel.
  split; [lia|]. split; [lia|]. auto.
Qed.

Lemma u64_div_down_ok a b r :
  U64.div_down a b = Ok r ->
  b <> 0 /\ 0 <= a * ONE_U64 < U128_MAX1 /\ r = a * ONE_U64 / b /\ 0 <= r < U64_MAX1.
Proof.
  unfold U64.div_down, checked_mul. destruct (b =? 0) eqn:Hb; [discriminate|].
  intros H. peel. split; [lia|]. auto.
Qed.

Lemma u64_div_up_nonneg a b r : U64.div_up a b = Ok r -> 0 <= r.
Proof.
  unfold U64.div_up, checked_mul, checked_add. destruct (b =? 0) eqn:Hb; [discriminate|].
  intros H. peel. lia.
Qed.

Lemma u128_div_up_nonneg a b r : 0 <= b -> U128.div_up a b = Ok r -> 0 <= r.
Proof.
  intros Hb H. apply u128_div_up_ok in H as (Hb0 & _ & H1 & ->).
  apply Z.div_pos; lia.
Qed.

Lemma pow_up_nonneg powf x e r : 0 <= x -> Pow.pow_up powf x e = Ok r -> 0 <= r.
Proof.
  intros Hx H. unfold Pow.pow_up in H.
  destruct (e =? ZERO); [injection H as <-; unfold ONE, SCALE; lia|].
  destruct (e =? ONE); [injection H as <-; exact Hx|].
  destruct (e =? TWO).
  { apply u128_mul_up_ok in H as (H1 & _ & ->). apply Z.div_pos; unfold SCALE in *; lia. }
  destruct (e =? THREE).
  { apply rbind_ok in H as (s & _ & H).
    apply u128_mul_up_ok in H as (H1 & _ & ->). apply Z.div_pos; unfold SCALE in *; lia. }
  destruct (e =? FOUR).
  { apply rbind_ok in H as (s & _ & H).
    apply u128_mul_up_ok in H as (H1 & _ & ->). apply Z.div_pos; unfold SCALE in *; lia. }
  apply rbind_ok in H as (b & _ & H). apply rbind_ok in H as (ex & _ & H).
  apply rbind_ok in H as (p & _ & H). exact (u64_div_up_nonneg _ _ _ H).
Qed.

(** [a * c / ONE <= a] for a 1.0-or-less factor [c] *)
Lemma scaled_le (a c : Z) : 0 <= a -> 0 <= c <= SCALE -> a * c / SCALE <= a.
Proof.
  intros Ha Hc. apply Z.div_le_upper_bound; [unfold SCALE; lia|]. nia.
Qed.

Lemma complement_range (p : Z) : 0 <= p -> 0 <= U128.complement p <= ONE.
Proof. intros Hp. unfold U128.complement, saturating_sub, ONE, SCALE. lia. Qed.

Lemma u64_complement_range (p : Z) : 0 <= p -> 0 <= U64.complement p <= ONE_U64.
Proof. intros Hp. unfold U64.complement, saturating_sub, ONE_U64. lia. Qed.

(** ** weighted.rs *)

(** X1: whatever the external power function returns, a successful weighted
    [calc_out_given_in] pays out between 0 and [balance_out]: the
    complement [1 - power] is at most 1.0, so the swap can never ask the pool
    for more than it holds. *)
Theorem weighted_out_given_in_within_balance powf bi wi bo wo a r :
  0 <= bo ->
  Weighted.calc_out_given_in powf bi wi bo wo a = Ok r -> 0 <= r <= bo.
Proof.
  intros Hbo H. unfold Weighted.calc_out_given_in, checked_add in H.
  apply rbind_ok in H as (s & Hs & H). apply ok_or_ok in Hs. apply fits_some in Hs as [-> Hs].
  apply rbind_ok in H as (base & Hbase & H). apply rbind_ok in H as (ex & _ & H).
  apply rbind_ok in H as (power & Hpow & H). apply rbind_ok in H as (out & Hout & H).
  injection H as <-.
  assert (Hb : 0 <= base) by (apply (u128_div_up_nonneg bi (bi + a)); [lia | exact Hbase]).
  assert (Hp := pow_up_nonneg _ _ _ _ Hb Hpow).
  assert (Hc := complement_range _ Hp).
  apply u128_mul_down_ok in Hout as (Hm & ->).
  split; [apply Z.div_pos; unfold SCALE; lia|].
  apply scaled_le; unfold ONE in Hc; lia.
Qed.

(** Witness of X1 on an equal-weight pool (where the power is exact). *)
Lemma weighted_out_given_in_within_balance_witness :
  0 <= 1000000000000 /\ 0 <= 90909090000 <= 1000000000000.
Proof.
  split; [lia|].
  apply (weighted_out_given_in_within_balance (fun _ _ => None)
           1000000000000 500000000 1000000000000 500000000 100000000000);
    [lia | vm_compute; reflexivity].
Defined.

(** X2: the weighted [calc_in_given_out] cannot buy the whole output
    balance or more: asking for more than [balance_out] fails with
    MathOverflow (the subtraction), asking for exactly [balance_out] fails
    with DivideByZero (the base divides by the remaining balance 0). *)
Theorem weighted_in_given_out_whole_balance powf bi wi bo wo :
  (forall a, u128 bo -> bo < a ->
     Weighted.calc_in_given_out powf bi wi bo wo a = Err MathOverflow) /\
  (u128 bo -> Weighted.calc_in_given_out powf bi wi bo wo bo = Err DivideByZero).
Proof.
  split.
  - intros a Hbo Ha. unfold Weighted.calc_in_given_out, checked_sub, fits, in_width.
    rewrite (proj2 (Z.leb_gt 0 (bo - a))) by lia. reflexivity.
  - intros Hbo. unfold Weighted.calc_in_given_out.
    unfold checked_sub. rewrite Z.sub_diag.
    rewrite fits_in by (unfold U128_MAX1; lia). reflexivity.
Qed.

(** Witness of X2 *)
Lemma weighted_in_given_out_whole_balance_witness :
  Weighted.calc_in_given_out (fun _ _ => None) 100 500000000 100 500000000 101
    = Err MathOverflow /\
  Weighted.calc_in_given_out (fun _ _ => None) 100 500000000 100 500000000 100
    = Err DivideByZero.
Proof.
  destruct (weighted_in_given_out_whole_balance (fun _ _ => None) 100 500000000 100 500000000)
    as [H1 H2].
  split; [apply H1 | apply H2]; unfold u128, U128_MAX1; lia.
Defined.

(** X3: in a pool whose two weights are equal, swapping in nothing pays
    out nothing: the base [balance_in / balance_in] rounds up to exactly 1.0,
    the exponent is 1.0, and the complement is 0. *)
Theorem weighted_out_given_in_zero_equal_weights powf bi w bo :
  0 < bi -> bi * SCALE + (bi - 1) < U128_MAX1 -> 0 < w -> w * SCALE < U128_MAX1 -> u128 bo ->
  Weighted.calc_out_given_in powf bi w bo w 0 = Ok 0.
Proof.
  intros Hbi Hbi' Hw Hw' Hbo. unfold Weighted.calc_out_given_in.
  unfold checked_add. rewrite Z.add_0_r.
  rewrite fits_in by (unfold SCALE in *; lia). cbn [ok_or rbind].
  assert (Hbase : U128.div_up bi bi = Ok ONE).
  { unfold U128.div_up, checked_mul, checked_add, checked_div, obind, ok_or, rbind.
    rewrite (proj2 (Z.eqb_neq bi 0)) by lia.
    rewrite fits_in by (unfold SCALE in *; lia). cbn [rbind].
    rewrite fits_in by (unfold SCALE in *; lia).
    f_equal. unfold ONE. rewrite (Z.mul_comm bi SCALE).
    replace (SCALE * bi + (bi - 1)) with ((bi - 1) + SCALE * bi) by ring.
    rewrite Z.div_add by lia. rewrite Z.div_small by lia. lia. }
  assert (Hexp : U128.div_down w w = Ok ONE).
  { unfold U128.div_down, checked_mul, checked_div, obind, ok_or.
    rewrite (proj2 (Z.eqb_neq w 0)) by lia.
    rewrite fits_in by (unfold SCALE in *; lia).
    f_equal. unfold ONE. rewrite Z.mul_comm. apply Z.div_mul. lia. }
  rewrite Hbase. cbn [rbind]. rewrite Hexp. cbn [rbind].
  replace (Pow.pow_up powf ONE ONE) with (Ok (A := Z) ONE) by reflexivity.
  cbn [rbind]. change (U128.complement ONE) with 0.
  rewrite mul_down_zero_r by assumption. reflexivity.
Qed.

(** Witness of X3 *)
Lemma weighted_out_given_in_zero_equal_weights_witness :
  Weighted.calc_out_given_in (fun _ _ => None) 1000000 500000000 2000000 500000000 0 = Ok 0.
Proof.
  apply weighted_out_given_in_zero_equal_weights; unfold u128, U128_MAX1, SCALE; lia.
Defined.

Lemma pow_down_one powf x : Pow.pow_down powf x ONE = Ok x.
Proof. reflexivity. Qed.

(** X4: with [sum_of_weights = 1.0] (as the unbalanced deposit calls it),
    a successful [calc_lp_to_mint] mints a nonnegative amount that never
    exceeds the supply's share of the invariant growth:
    [minted * k_old <= lp_supply * (k_new - k_old)]. *)
Theorem weighted_lp_to_mint_within_growth powf lp_supply k_new k_old m :
  0 <= lp_supply ->
  Weighted.calc_lp_to_mint powf lp_supply k_new k_old ONE = Ok m ->
  0 <= m /\ m * k_old <= lp_supply * (k_new - k_old).
Proof.
  intros Hs H. unfold Weighted.calc_lp_to_mint in H.
  apply rbind_ok in H as (base & Hbase & H).
  rewrite pow_down_one in H. cbn [rbind] in H.
  apply rbind_ok in H as (right & Hright & H).
  apply rbind_ok in H as (net & Hnet & H). injection H as <-.
  apply ok_or_ok in Hright. unfold checked_sub in Hright. apply fits_some in Hright as [-> Hr].
  apply u128_div_down_ok in Hbase as (Hko & Hkn & ->).
  apply u128_mul_down_ok in Hnet as (Hm & ->).
  unfold ONE, SCALE in *.
  assert (Hko' : 0 < k_old).
  { destruct (Z.lt_trichotomy k_old 0) as [Hneg | [Hz | Hpos]]; [|lia|lia].
    exfalso. assert (k_new * 1000000000 / k_old <= 0).
    { Z.div_mod_to_equations. nia. }
    lia. }
  set (base := k_new * 1000000000 / k_old) in *.
  assert (Hb : base * k_old <= k_new * 1000000000).
  { rewrite Z.mul_comm. apply Z.mul_div_le. exact Hko'. }
  set (q := lp_supply * (base - 1000000000) / 1000000000).
  assert (Hq : q * 1000000000 <= lp_supply * (base - 1000000000)).
  { unfold q. rewrite Z.mul_comm. apply Z.mul_div_le. lia. }
  split; [apply Z.div_pos; lia|].
  assert (H1 : q * k_old * 1000000000 <= lp_supply * (k_new - k_old) * 1000000000) by nia.
  nia.
Qed.

(** Witness of X4: growing the invariant from 1000 to 1100 mints a tenth
    of the supply. *)
Lemma weighted_lp_to_mint_within_growth_witness :
  0 <= 500000 /\ 0 <= 50000 /\ 50000 * 1000 <= 500000 * (1100 - 1000).
Proof.
  split; [lia|].
  apply (weighted_lp_to_mint_within_growth (fun _ _ => None) 500000 1100 1000 50000);
    [lia | vm_compute; reflexivity].
Defined.

(** X5: with [sum_of_weights = 1.0], [calc_lp_to_mint] fails with
    DivideByZero on [k_old = 0], fails with MathOverflow when the invariant
    shrank ([k_new < k_old]), and mints exactly 0 when it is unchanged. *)
Theorem weighted_lp_to_mint_edges powf lp_supply :
  (forall k_new, Weighted.calc_lp_to_mint powf lp_supply k_new 0 ONE = Err DivideByZero) /\
  (forall k_new k_old, 0 <= k_new < k_old ->
     Weighted.calc_lp_to_mint powf lp_supply k_new k_old ONE = Err MathOverflow) /\
  (forall k, 0 < k -> k * SCALE < U128_MAX1 -> u128 lp_supply ->
     Weighted.calc_lp_to_mint powf lp_supply k k ONE = Ok 0).
Proof.
  split; [|split].
  - intros k_new. reflexivity.
  - intros k_new k_old Hk. unfold Weighted.calc_lp_to_mint, U128.div_down.
    rewrite (proj2 (Z.eqb_neq k_old 0)) by lia.
    unfold checked_mul, fits, in_width.
    destruct (0 <=? k_new * SCALE) eqn:H1; [|reflexivity].
    destruct (k_new * SCALE <? U128_MAX1) eqn:H2; [|reflexivity].
    cbn [andb obind].
    unfold checked_div. rewrite (proj2 (Z.eqb_neq k_old 0)) by lia. cbn [ok_or rbind].
    rewrite pow_down_one. cbn [rbind].
    unfold checked_sub, fits, in_width.
    assert (Hlt : k_new * SCALE / k_old < ONE).
    { unfold ONE. apply Z.div_lt_upper_bound; [lia|]. unfold SCALE. nia. }
    rewrite (proj2 (Z.leb_gt 0 (k_new * SCALE / k_old - ONE))) by lia. reflexivity.
  - intros k Hk Hks Hs. unfold Weighted.calc_lp_to_mint, U128.div_down.
    rewrite (proj2 (Z.eqb_neq k 0)) by lia.
    unfold checked_mul. rewrite fits_in by (unfold SCALE in *; lia).
    cbn [obind]. unfold checked_div. rewrite (proj2 (Z.eqb_neq k 0)) by lia.
    cbn [ok_or rbind]. rewrite (Z.mul_comm k SCALE), Z.div_mul by lia.
    rewrite pow_down_one. cbn [rbind].
    unfold checked_sub. unfold ONE. rewrite Z.sub_diag.
    rewrite fits_in by (unfold U128_MAX1; lia). cbn [ok_or rbind].
    rewrite mul_down_zero_r by assumption. reflexivity.
Qed.

(** Witness of X5 *)
Lemma weighted_lp_to_mint_edges_witness :
  Weighted.calc_lp_to_mint (fun _ _ => None) 500000 900 1000 ONE = Err MathOverflow /\
  Weighted.calc_lp_to_mint (fun _ _ => None) 500000 1000 1000 ONE = Ok 0.
Proof.
  destruct (weighted_lp_to_mint_edges (fun _ _ => None) 500000) as (_ & H2 & H3).
  split; [apply H2; lia | apply H3; unfold u128, U128_MAX1, SCALE; lia].
Defined.

(** ** stable.rs: proportional deposits and withdrawals *)

Lemma token_out_proportional_ok lp s b o :
  Stable.token_out_proportional lp s b = Some o ->
  s <> 0 /\ 0 <= b * lp < U128_MAX1 /\ o = b * lp / s /\ 0 <= o < U64_MAX1.
Proof. unfold Stable.token_out_proportional, checked_mul. intros H. peel. auto. Qed.

Lemma token_in_proportional_ok lp s b i :
  Stable.token_in_proportional lp s b = Some i ->
  s <> 0 /\ 0 <= s - 1 /\ 0 <= b * lp /\ i = (b * lp + (s - 1)) / s /\ 0 <= i < U64_MAX1.
Proof.
  unfold Stable.token_in_proportional, checked_mul, checked_sub, checked_add. intros H.
  peel. split; [lia|]. split; [lia|]. split; [lia|]. auto.
Qed.

Lemma tokens_out_loop_forall2 lp s bs os :
  Stable.tokens_out_loop lp s bs = Some os ->
  Forall2 (fun b o => Stable.token_out_proportional lp s b = Some o) bs os.
Proof.
  revert os. induction bs as [|b bs IH]; intros os H; simpl in H.
  - injection H as <-. constructor.
  - apply obind_some in H as (o & Ho & H). apply obind_some in H as (rest & Hr & H).
    injection H as <-. constructor; [exact Ho | apply IH; exact Hr].
Qed.

Lemma tokens_in_loop_forall2 lp s bs is :
  Stable.tokens_in_loop lp s bs = Some is ->
  Forall2 (fun b i => Stable.token_in_proportional lp s b = Some i) bs is.
Proof.
  revert is. induction bs as [|b bs IH]; intros is H; simpl in H.
  - injection H as <-. constructor.
  - apply obind_some in H as (i & Hi & H). apply obind_some in H as (rest & Hr & H).
    injection H as <-. constructor; [exact Hi | apply IH; exact Hr].
Qed.

Lemma forall2_nth {A B} (P : A -> B -> Prop) xs ys k x y :
  Forall2 P xs ys -> nth_error xs k = Some x -> nth_error ys k = Some y -> P x y.
Proof.
  intros H. revert k. induction H as [|x' y' xs ys Hp Hs IH]; intros k Hx Hy.
  - destruct k; discriminate.
  - destruct k as [|k]; simpl in Hx, Hy.
    + injection Hx as <-. injection Hy as <-. exact Hp.
    + exact (IH k Hx Hy).
Qed.

(** X6: for the same LP amount, the proportional deposit rounds up and
    the proportional withdrawal rounds down: per token
    [out * lp_supply <= balance * lp_amount <= in * lp_supply], and the
    deposit asks at most one unit more than the withdrawal pays. *)
Theorem proportional_in_out_bracket balances lp_amount lp_supply outs ins :
  Stable.calc_tokens_out_proportional balances lp_amount lp_supply = Some outs ->
  Stable.calc_tokens_in_proportional balances lp_amount lp_supply = Some ins ->
  forall k b o i,
    nth_error balances k = Some b -> nth_error outs k = Some o -> nth_error ins k = Some i ->
    o * lp_supply <= b * lp_amount <= i * lp_supply /\ o <= i <= o + 1.
Proof.
  intros Hout Hin k b o i Hb Ho Hi.
  apply tokens_out_loop_forall2 in Hout. apply tokens_in_loop_forall2 in Hin.
  pose proof (forall2_nth _ _ _ _ _ _ Hout Hb Ho) as So.
  pose proof (forall2_nth _ _ _ _ _ _ Hin Hb Hi) as Si.
  apply token_out_proportional_ok in So as (Hs & Hm & -> & _).
  apply token_in_proportional_ok in Si as (_ & Hs1 & _ & -> & _).
  assert (Hpos : 0 < lp_supply) by lia.
  split; [split|split].
  - rewrite Z.mul_comm. apply Z.mul_div_le. exact Hpos.
  - apply div_up_ceiling. exact Hpos.
  - apply Z.div_le_mono; lia.
  - Z.div_mod_to_equations. nia.
Qed.

(** Witness of X6 *)
Lemma proportional_in_out_bracket_witness :
  Stable.calc_tokens_out_proportional [1000; 2001] 1 3 = Some [333; 667] /\
  Stable.calc_tokens_in_proportional [1000; 2001] 1 3 = Some [334; 667] /\
  (333 * 3 <= 1000 * 1 <= 334 * 3 /\ 333 <= 334 <= 333 + 1).
Proof.
  split; [reflexivity|]. split; [reflexivity|].
  apply (proportional_in_out_bracket [1000; 2001] 1 3 [333; 667] [334; 667]
           eq_refl eq_refl 0 1000 333 334); reflexivity.
Defined.

(** X7: with an LP supply of 0 both proportional calculations fail on any
    nonempty pool: the withdrawal divides by 0, and the deposit's
    [lp_supply - 1] underflows. *)
Theorem proportional_zero_supply balances lp_amount :
  balances <> [] ->
  Stable.calc_tokens_out_proportional balances lp_amount 0 = None /\
  Stable.calc_tokens_in_proportional balances lp_amount 0 = None.
Proof.
  intros Hne. destruct balances as [|b bs]; [contradiction|]. split.
  - unfold Stable.calc_tokens_out_proportional. simpl.
    unfold Stable.token_out_proportional, obind.
    destruct (checked_mul U128_MAX1 b lp_amount); reflexivity.
  - unfold Stable.calc_tokens_in_proportional. simpl.
    unfold Stable.token_in_proportional, obind.
    destruct (checked_mul U128_MAX1 b lp_amount); reflexivity.
Qed.

(** Witness of X7 *)
Lemma proportional_zero_supply_witness :
  Stable.calc_tokens_out_proportional [1000; 2000] 5 0 = None /\
  Stable.calc_tokens_in_proportional [1000; 2000] 5 0 = None.
Proof. apply proportional_zero_supply. discriminate. Defined.

(** X8: burning at most the whole supply never withdraws more than the
    pool holds: every amount of [calc_tokens_out_proportional] lies between 0
    and the balance it is taken from. *)
Theorem tokens_out_proportional_within_balances balances lp_amount_in lp_supply outs :
  Forall u64 balances -> 0 <= lp_amount_in <= lp_supply ->
  Stable.calc_tokens_out_proportional balances lp_amount_in lp_supply = Some outs ->
  Forall2 (fun b o => 0 <= o <= b) balances outs.
Proof.
  intros Hb Hlp H. apply tokens_out_loop_forall2 in H.
  induction H as [|b o bs os Ho Hs IH]; constructor.
  - inversion Hb as [|? ? Hb0 _]; subst. unfold u64 in Hb0.
    apply token_out_proportional_ok in Ho as (Hs0 & Hm & -> & Hr).
    split; [lia|]. apply Z.div_le_upper_bound; [lia|]. nia.
  - apply IH. inversion Hb; assumption.
Qed.

(** Witness of X8 *)
Lemma tokens_out_proportional_within_balances_witness :
  Stable.calc_tokens_out_proportional [1000; 2000] 1 3 = Some [333; 666] /\
  Forall2 (fun b o => 0 <= o <= b) [1000; 2000] [333; 666].
Proof.
  split; [reflexivity|].
  exact (tokens_out_proportional_within_balances [1000; 2000] 1 3 [333; 666]
           ltac:(repeat constructor; unfold u64, U64_MAX1; lia) ltac:(lia) eq_refl).
Defined.

(** ** stable.rs: the balance solver and what is built on it *)

Lemma prod_sum_loop_from_zero n inv rest s p' s' :
  Stable.prod_sum_loop n inv rest 0 s = Some (p', s') -> p' = 0.
Proof.
  revert s. induction rest as [|bi rest IH]; intros s H; simpl in H.
  - injection H as H1 H2. subst. reflexivity.
  - apply obind_some in H as (p_i & _ & H). apply obind_some in H as (p1 & Hp1 & H).
    apply obind_some in H as (s1 & _ & H).
    unfold Stable.mul_div_down in Hp1. destruct (inv =? 0); [discriminate|].
    apply fits_some in Hp1 as [-> _]. rewrite Z.mul_0_l, Zdiv_0_l in H.
    exact (IH _ H).
Qed.

Lemma prod_sum_loop_hits_zero n inv rest p s p' s' :
  In 0 rest -> Stable.prod_sum_loop n inv rest p s = Some (p', s') -> p' = 0.
Proof.
  revert p s. induction rest as [|bi rest IH]; intros p s Hin H; [destruct Hin|].
  simpl in H. apply obind_some in H as (p_i & Hpi & H). apply obind_some in H as (p1 & Hp1 & H).
  apply obind_some in H as (s1 & _ & H).
  destruct Hin as [-> | Hin].
  - unfold checked_mul in Hpi. apply fits_some in Hpi as [-> _].
    unfold Stable.mul_div_down in Hp1. destruct (inv =? 0); [discriminate|].
    apply fits_some in Hp1 as [-> _]. rewrite Z.mul_0_l, Z.mul_0_r, Zdiv_0_l in H.
    exact (prod_sum_loop_from_zero _ _ _ _ _ _ H).
  - exact (IH _ _ Hin H).
Qed.

(** A zero balance makes the running product [P] zero, and the solver's
    [c = D^(n+1) / (n^n * P * Ann)] divides by zero. *)
Lemma balance_solver_init_zero amp balances invariant token_index :
  In 0 balances -> Stable.balance_solver_init amp balances invariant token_index = None.
Proof.
  intros Hin. destruct (Stable.balance_solver_init amp balances invariant token_index) as [x|]
    eqn:E; [exfalso|reflexivity].
  unfold Stable.balance_solver_init in E.
  apply obind_some in E as (att & Hatt & E). apply obind_some in E as (b0 & Hb0 & E).
  apply obind_some in E as (p0 & Hp0 & E). apply obind_some in E as ([p sum0] & Hps & E).
  apply obind_some in E as (balance & _ & E). apply obind_some in E as (inv2 & _ & E).
  apply obind_some in E as (ap & Hap & E). apply obind_some in E as (c0 & Hc0 & _).
  assert (Hp : p = 0).
  { destruct balances as [|b bs]; [destruct Hin|]. simpl in Hb0. injection Hb0 as ->.
    simpl in Hps. destruct Hin as [-> | Hin].
    - unfold checked_mul in Hp0. apply fits_some in Hp0 as [-> _].
      rewrite Z.mul_0_l in Hps. exact (prod_sum_loop_from_zero _ _ _ _ _ _ Hps).
    - exact (prod_sum_loop_hits_zero _ _ _ _ _ _ _ Hin Hps). }
  subst p. unfold Stable.mul192, checked_mul in Hap. apply fits_some in Hap as [-> _].
  rewrite Z.mul_0_r in Hc0. discriminate Hc0.
Qed.

Lemma set_index_in bs i x nb : Stable.set_index bs i x = Some nb -> In x nb.
Proof.
  revert i nb. induction bs as [|b bs IH]; intros i nb H; [discriminate|].
  destruct i as [|i]; simpl in H.
  - injection H as <-. left. reflexivity.
  - apply obind_some in H as (r & Hr & H). injection H as <-. right. exact (IH _ _ Hr).
Qed.

(** X9: the stable balance solver
    [get_token_balance_given_invariant_and_others] fails whenever one of the
    balances is 0, whatever the amplification, invariant and index. *)
Theorem stable_balance_solver_zero_balance amp balances invariant token_index :
  In 0 balances ->
  Stable.get_token_balance_given_invariant_and_others amp balances invariant token_index
    = None.
Proof.
  intros Hin. unfold Stable.get_token_balance_given_invariant_and_others.
  rewrite balance_solver_init_zero by exact Hin. reflexivity.
Qed.

(** Witness of X9 *)
Lemma stable_balance_solver_zero_balance_witness :
  Stable.get_token_balance_given_invariant_and_others 5000000
    [40000000000000000; 0] 99999583421855646 1 = None.
Proof. apply stable_balance_solver_zero_balance. simpl. right. left. reflexivity. Defined.

(** X10: the stable [calc_in_given_out] cannot buy the whole output
    balance or more: for [amount_out > balance_out] the subtraction fails,
    and for [amount_out = balance_out] the solver runs on a zero balance. *)
Theorem stable_in_given_out_whole_balance amp balances idx_in idx_out balance_out amount_out :
  Stable.index balances idx_out = Some balance_out -> balance_out <= amount_out ->
  Stable.calc_in_given_out amp balances idx_in idx_out amount_out = None.
Proof.
  intros Hb Ha. unfold Stable.calc_in_given_out.
  destruct (Stable.calc_invariant amp balances) as [inv|]; [|reflexivity]. cbn [obind].
  rewrite Hb. cbn [obind].
  destruct (Z.eq_dec balance_out amount_out) as [<- | Hne].
  - unfold checked_sub. rewrite Z.sub_diag, fits_in by (unfold U64_MAX1; lia). cbn [obind].
    destruct (Stable.set_index balances idx_out 0) as [nb|] eqn:Hnb; [|reflexivity].
    cbn [obind]. destruct (Stable.index balances idx_in); [|reflexivity]. cbn [obind].
    unfold Stable.get_token_balance_given_invariant_and_others.
    rewrite balance_solver_init_zero by exact (set_index_in _ _ _ _ Hnb).
    reflexivity.
  - unfold checked_sub, fits, in_width.
    rewrite (proj2 (Z.leb_gt 0 (balance_out - amount_out))) by lia. reflexivity.
Qed.

(** Witness of X10 on the two-token reference pool of C1 *)
Lemma stable_in_given_out_whole_balance_witness :
  Stable.calc_in_given_out 5000000 [40000000000000000; 60000000000000000] 0 1
    60000000000000000 = None.
Proof.
  apply (stable_in_given_out_whole_balance _ _ _ _ 60000000000000000);
    [reflexivity | lia].
Defined.

Lemma balance_solver_nonneg amp balances invariant token_index y :
  Stable.get_token_balance_given_invariant_and_others amp balances invariant token_index
    = Some y -> 0 <= y < U64_MAX1.
Proof.
  unfold Stable.get_token_balance_given_invariant_and_others. intros H.
  apply obind_some in H as ([[b c] y0] & _ & H).
  apply bounded_newton_some in H as (k & xk & xk' & _ & _ & Hs & _ & Hf & _).
  injection Hf as ->. unfold Stable.balance_step in Hs. peel.
  unfold Stable.as_u64 in *. peel. lia.
Qed.

(** X11: a successful stable [calc_out_given_in] pays out less than the
    output balance: the result is [balance_out - new_balance_out - 1] with a
    solved balance that is never negative. *)
Theorem stable_out_given_in_below_balance amp balances idx_in idx_out amount_in r balance_out :
  Stable.calc_out_given_in amp balances idx_in idx_out amount_in = Some r ->
  Stable.index balances idx_out = Some balance_out ->
  0 <= r < balance_out.
Proof.
  intros H Hb. unfold Stable.calc_out_given_in in H.
  apply obind_some in H as (inv & _ & H). apply obind_some in H as (bin & _ & H).
  apply obind_some in H as (bin' & _ & H). apply obind_some in H as (nb & _ & H).
  apply obind_some in H as (bout & Hbout & H). rewrite Hb in Hbout. injection Hbout as <-.
  apply obind_some in H as (fb & Hfb & H). apply balance_solver_nonneg in Hfb.
  apply obind_some in H as (r1 & Hr1 & H). unfold checked_sub in *. peel. lia.
Qed.

(** Witness of X11 on the swap of C2 *)
Lemma stable_out_given_in_below_balance_witness :
  0 <= 10000867892 < 60000000000000000.
Proof.
  apply (stable_out_given_in_below_balance 5000000 [40000000000000000; 60000000000000000]
           0 1 10000000000);
    [vm_compute; reflexivity | reflexivity].
Defined.

(** X12: with a nonnegative swap fee, a successful single-sided LP burn
    [calc_token_out_for_lp_burn] pays out between 0 and the balance of the
    token withdrawn: the raw amount is [balance - new_balance] with a solved
    balance that is never negative, and the fee split
    [taxable * (1 - fee) + non_taxable] never exceeds the raw amount. *)
Theorem stable_lp_burn_within_balance amp balances token_index lp_amount_in lp_supply
    current_invariant swap_fee r balance :
  0 <= swap_fee ->
  Stable.calc_token_out_for_lp_burn amp balances token_index lp_amount_in lp_supply
    current_invariant swap_fee = Some r ->
  Stable.index balances token_index = Some balance ->
  0 <= r <= balance.
Proof.
  intros Hfee H Hb. unfold Stable.calc_token_out_for_lp_burn in H.
  apply obind_some in H as (rem & _ & H). apply obind_some in H as (m & _ & H).
  apply obind_some in H as (ni & _ & H). apply obind_some in H as (ni' & _ & H).
  apply obind_some in H as (bal & Hbal & H). rewrite Hb in Hbal. injection Hbal as <-.
  apply obind_some in H as (nb & Hnb & H). apply balance_solver_nonneg in Hnb.
  apply obind_some in H as (raw & Hraw & H).
  unfold checked_sub in Hraw. apply fits_some in Hraw as [-> Hraw].
  apply obind_some in H as (sum & _ & H).
  apply obind_some in H as (cw & Hcw & H). apply res_ok_some in Hcw.
  apply u64_div_down_ok in Hcw as (_ & _ & _ & Hcw).
  apply obind_some in H as (tax & Htax & H). apply res_ok_some in Htax.
  apply obind_some in H as (t & Ht & H). apply res_ok_some in Ht.
  pose proof (u64_complement_range cw ltac:(lia)) as Htp.
  pose proof (u64_complement_range swap_fee Hfee) as Hfc.
  apply u64_mul_up_ok in Htax as (Hm1 & _ & Htax & _).
  apply u64_mul_down_ok in Ht as (Hm2 & -> & _).
  unfold checked_add in H. apply fits_some in H as [-> _].
  set (raw := balance - nb) in *.
  set (tp := U64.complement cw) in *. set (fc := U64.complement swap_fee) in *.
  unfold ONE_U64 in *.
  assert (Htax_le : tax <= raw).
  { rewrite Htax. apply Z.lt_succ_r. apply Z.div_lt_upper_bound; [lia|]. nia. }
  assert (Htax0 : 0 <= tax) by (rewrite Htax; apply Z.div_pos; lia).
  assert (Ht_le : tax * fc / 1000000000 <= tax).
  { apply Z.div_le_upper_bound; [lia|]. nia. }
  assert (Ht0 : 0 <= tax * fc / 1000000000) by (apply Z.div_pos; lia).
  unfold saturating_sub. lia.
Qed.

(** Witness of X12: burning 1e12 of a 1e17 supply of the reference pool
    for token 0 at a 0.3% fee. *)
Lemma stable_lp_burn_within_balance_witness :
  0 <= 998148022782 <= 40000000000000000.
Proof.
  apply (stable_lp_burn_within_balance 5000000 [40000000000000000; 60000000000000000] 0
           1000000000000 100000000000000000 99999583421855646 3000000);
    [lia | vm_compute; reflexivity | reflexivity].
Defined.

Lemma forall_nth {A} (P : A -> Prop) xs k x :
  Forall P xs -> nth_error xs k = Some x -> P x.
Proof.
  intros H. revert k. induction H as [|y ys Hy Hys IH]; intros k Hk.
  - destruct k; discriminate.
  - destruct k as [|k]; simpl in Hk; [injection Hk as <-; exact Hy | exact (IH k Hk)].
Qed.

(** Step 2 computes, for every token, [ratio = (balance + amount_in) / balance]
    rounded down, on a nonzero balance. *)
Lemma ratio_loop_nth sum bs as_ i0 rs ideal :
  Stable.ratio_loop sum bs as_ i0 = Some (rs, ideal) ->
  forall k b a r, nth_error bs k = Some b -> nth_error as_ k = Some a ->
    nth_error rs k = Some r -> 0 <= b -> 0 < b /\ r * b <= (b + a) * ONE_U64.
Proof.
  revert as_ i0 rs ideal.
  induction bs as [|b bs IH]; intros as_ i0 rs ideal H k b' a' r' Hb Ha Hr Hb0.
  - destruct k; discriminate.
  - destruct as_ as [|a as_]; [discriminate|]. simpl in H.
    apply obind_some in H as (nb & Hnb & H). apply obind_some in H as (ratio & Hratio & H).
    apply obind_some in H as (w & _ & H). apply obind_some in H as (rw & _ & H).
    apply obind_some in H as (i1 & _ & H). apply obind_some in H as ([ratios ideal'] & Hrest & H).
    injection H as <- <-.
    destruct k as [|k]; simpl in Hb, Ha, Hr.
    + injection Hb as <-. injection Ha as <-. injection Hr as <-.
      unfold checked_add in Hnb. apply fits_some in Hnb as [-> _].
      apply res_ok_some in Hratio. apply u64_div_down_ok in Hratio as (Hb1 & _ & -> & _).
      split; [lia|]. rewrite Z.mul_comm. apply Z.mul_div_le. lia.
    + exact (IH _ _ _ _ Hrest k b' a' r' Hb Ha Hr Hb0).
Qed.

(** The fee adjustment of one token credits between 0 and the deposited
    amount. *)
Lemma amount_in_without_fee_bounds ideal fee b a r w :
  0 < b -> 0 <= a -> 0 <= fee -> r * b <= (b + a) * ONE_U64 ->
  Stable.amount_in_without_fee ideal fee b a r = Some w -> 0 <= w <= a.
Proof.
  intros Hb Ha Hfee Hr H. unfold Stable.amount_in_without_fee in H.
  destruct (ideal <? r) eqn:Hlt; [|injection H as <-; lia].
  apply Z.ltb_lt in Hlt.
  apply obind_some in H as (nt & Hnt & H). apply res_ok_some in Hnt.
  apply obind_some in H as (t & Ht & H). apply res_ok_some in Ht.
  unfold checked_add in H. apply fits_some in H as [-> _].
  pose proof (u64_complement_range fee Hfee) as Hfc.
  apply u64_mul_down_ok in Hnt as (Hm1 & -> & _).
  apply u64_mul_down_ok in Ht as (Hm2 & -> & _).
  set (fc := U64.complement fee) in *. unfold saturating_sub, ONE_U64 in *.
  assert (Hnt : b * Z.max (ideal - 1000000000) 0 / 1000000000 <= a).
  { apply Z.lt_succ_r. apply Z.div_lt_upper_bound; [lia|].
    destruct (Z.max_spec (ideal - 1000000000) 0) as [[_ ->] | [_ ->]]; nia. }
  assert (Hnt0 : 0 <= b * Z.max (ideal - 1000000000) 0 / 1000000000)
    by (apply Z.div_pos; lia).
  set (nt := b * Z.max (ideal - 1000000000) 0 / 1000000000) in *.
  assert (Htax : Z.max (a - nt) 0 = a - nt) by lia. rewrite Htax in *.
  assert (Ht_le : (a - nt) * fc / 1000000000 <= a - nt).
  { apply Z.div_le_upper_bound; [lia|]. nia. }
  assert (Ht0 : 0 <= (a - nt) * fc / 1000000000) by (apply Z.div_pos; lia).
  lia.
Qed.

Lemma fee_loop_nth ideal fee bs as_ rs nbs :
  0 <= fee ->
  (forall k b a r, nth_error bs k = Some b -> nth_error as_ k = Some a ->
     nth_error rs k = Some r -> 0 < b /\ 0 <= a /\ r * b <= (b + a) * ONE_U64) ->
  Stable.fee_loop ideal fee bs as_ rs = Some nbs ->
  forall k b a nb, nth_error bs k = Some b -> nth_error as_ k = Some a ->
    nth_error nbs k = Some nb -> b <= nb <= b + a.
Proof.
  intros Hfee. revert as_ rs nbs.
  induction bs as [|b bs IH]; intros as_ rs nbs Hall H k b' a' nb' Hb Ha Hn.
  - destruct k; discriminate.
  - destruct as_ as [|a as_]; [discriminate|]. destruct rs as [|r rs]; [discriminate|].
    simpl in H.
    apply obind_some in H as (w & Hw & H). apply obind_some in H as (nb & Hnb & H).
    apply obind_some in H as (rest & Hrest & H). injection H as <-.
    destruct k as [|k]; simpl in Hb, Ha, Hn.
    + injection Hb as <-. injection Ha as <-. injection Hn as <-.
      destruct (Hall O b a r eq_refl eq_refl eq_refl) as (Hb0 & Ha0 & Hr).
      pose proof (amount_in_without_fee_bounds _ _ _ _ _ _ Hb0 Ha0 Hfee Hr Hw).
      unfold checked_add in Hnb. apply fits_some in Hnb as [-> _]. lia.
    + refine (IH as_ rs rest _ Hrest k b' a' nb' Hb Ha Hn).
      intros j bj aj rj Hbj Haj Hrj. exact (Hall (S j) bj aj rj Hbj Haj Hrj).
Qed.

(** X13: with u64 balances and amounts and a nonnegative swap fee, every
    fee-adjusted balance of [calc_lp_tokens_for_deposit_with_fee] lies
    between the old balance and the old balance plus the amount deposited:
    the fee on the excess never credits more than was paid in, and never
    debits the pool. *)
Theorem stable_deposit_fee_adjusted_bounds balances amounts_in swap_fee new_balances :
  Forall u64 balances -> Forall u64 amounts_in -> 0 <= swap_fee ->
  Stable.fee_adjusted_balances balances amounts_in swap_fee = Some new_balances ->
  forall k b a nb, nth_error balances k = Some b -> nth_error amounts_in k = Some a ->
    nth_error new_balances k = Some nb -> b <= nb <= b + a.
Proof.
  intros Hbs Has Hfee H. unfold Stable.fee_adjusted_balances in H.
  apply obind_some in H as (sum & _ & H). apply obind_some in H as ([rs ideal] & Hri & H).
  refine (fee_loop_nth ideal swap_fee balances amounts_in rs new_balances Hfee _ H).
  intros k b a r Hb Ha Hr.
  pose proof (forall_nth _ _ _ _ Hbs Hb) as Hb0. pose proof (forall_nth _ _ _ _ Has Ha) as Ha0.
  unfold u64 in Hb0, Ha0.
  destruct (ratio_loop_nth _ _ _ _ _ _ Hri k b a r Hb Ha Hr ltac:(lia)) as [Hpos Hle].
  split; [exact Hpos|]. split; [lia | exact Hle].
Qed.

(** Witness of X13: a one-sided deposit of 1e12 into the reference pool
    at a 0.3% fee is credited 998.2e9. *)
Lemma stable_deposit_fee_adjusted_bounds_witness :
  40000000000000000 <= 40000998200000000 <= 40000000000000000 + 1000000000000.
Proof.
  apply (stable_deposit_fee_adjusted_bounds [40000000000000000; 60000000000000000]
           [1000000000000; 0] 3000000 [40000998200000000; 60000000000000000]
           ltac:(repeat constructor; unfold u64, U64_MAX1; lia)
           ltac:(repeat constructor; unfold u64, U64_MAX1; lia) ltac:(lia)
           ltac:(vm_compute; reflexivity) O);
    reflexivity.
Defined.

Lemma stable_calc_invariant_range amp balances d :
  Stable.calc_invariant amp balances = Some d -> 0 <= d < U64_MAX1.
Proof.
  unfold Stable.calc_invariant. intros H.
  apply obind_some in H as (sum & _ & H).
  destruct (sum =? 0); [injection H as <-; unfold U64_MAX1; lia|].
  apply obind_some in H as (ann & _ & H).
  apply bounded_newton_some in H as (k & xk & xk' & _ & _ & _ & _ & Hf & _).
  unfold Stable.as_u64 in Hf. apply fits_some in Hf as [-> Hf]. exact Hf.
Qed.

(** [floor(lp * (floor(new * ONE / old) - ONE) / ONE) * old <= lp * (new - old)] *)
Lemma lp_share_bound lp nw old : 0 <= lp -> 0 < old -> 0 <= nw ->
  1000000000 <= nw * 1000000000 / old ->
  lp * (nw * 1000000000 / old - 1000000000) / 1000000000 * old <= lp * (nw - old).
Proof.
  intros Hlp Hold Hnw Hr.
  set (base := nw * 1000000000 / old) in *.
  assert (Hb : base * old <= nw * 1000000000).
  { unfold base. rewrite Z.mul_comm. apply Z.mul_div_le. exact Hold. }
  set (q := lp * (base - 1000000000) / 1000000000).
  assert (Hq : q * 1000000000 <= lp * (base - 1000000000)).
  { unfold q. rewrite Z.mul_comm. apply Z.mul_div_le. lia. }
  assert (H1 : q * old * 1000000000 <= lp * (nw - old) * 1000000000) by nia.
  nia.
Qed.

(** X14: a successful unbalanced stable deposit
    [calc_lp_tokens_for_deposit_with_fee] mints a nonnegative amount of at
    most the supply's share of the invariant growth:
    [minted * current_invariant <= lp_supply * max(0, new_invariant -
    current_invariant)], where [new_invariant] is the invariant of the
    fee-adjusted balances. *)
Theorem stable_deposit_with_fee_within_growth amp balances amounts_in lp_supply
    current_invariant swap_fee m :
  0 <= lp_supply ->
  Stable.calc_lp_tokens_for_deposit_with_fee amp balances amounts_in lp_supply
    current_invariant swap_fee = Some m ->
  exists new_balances new_invariant,
    Stable.fee_adjusted_balances balances amounts_in swap_fee = Some new_balances /\
    Stable.calc_invariant amp new_balances = Some new_invariant /\
    0 <= m /\ m * current_invariant <= lp_supply * Z.max 0 (new_invariant - current_invariant).
Proof.
  intros Hlp H. unfold Stable.calc_lp_tokens_for_deposit_with_fee in H.
  apply obind_some in H as (nbs & Hnbs & H). apply obind_some in H as (ni & Hni & H).
  exists nbs, ni. split; [exact Hnbs|]. split; [exact Hni|].
  pose proof (stable_calc_invariant_range _ _ _ Hni) as Hni0.
  apply obind_some in H as (ratio & Hratio & H). apply res_ok_some in Hratio.
  apply u64_div_down_ok in Hratio as (Hci & Hm0 & -> & Hr).
  unfold ONE_U64 in *.
  destruct (1000000000 <? ni * 1000000000 / current_invariant) eqn:Hlt.
  - apply Z.ltb_lt in Hlt. apply res_ok_some in H.
    apply u64_mul_down_ok in H as (Hm1 & Hm & _). unfold ONE_U64 in Hm. subst m.
    unfold saturating_sub in *.
    rewrite Z.max_l in * by lia.
    assert (Hpos : 0 < current_invariant).
    { destruct (Z.lt_trichotomy current_invariant 0) as [Hneg | [Hz | Hpos]]; [|lia|lia].
      exfalso. assert (ni * 1000000000 / current_invariant <= 0)
        by (Z.div_mod_to_equations; nia). lia. }
    split; [apply Z.div_pos; lia|].
    pose proof (lp_share_bound lp_supply ni current_invariant Hlp Hpos ltac:(lia) ltac:(lia)).
    nia.
  - injection H as <-. split; [lia|]. nia.
Qed.

(** Witness of X14: the deposit of X13, minting 998.2e9 LP tokens. *)
Lemma stable_deposit_with_fee_within_growth_witness :
  0 <= 100000000000000000 /\
  exists new_balances new_invariant,
    Stable.fee_adjusted_balances [40000000000000000; 60000000000000000]
      [1000000000000; 0] 3000000 = Some new_balances /\
    Stable.calc_invariant 5000000 new_balances = Some new_invariant /\
    0 <= 998200000000 /\
    998200000000 * 99999583421855646 <=
      100000000000000000 * Z.max 0 (new_invariant - 99999583421855646).
Proof.
  split; [lia|].
  apply (stable_deposit_with_fee_within_growth 5000000 [40000000000000000; 60000000000000000]
           [1000000000000; 0] 100000000000000000 99999583421855646 3000000);
    [lia | vm_compute; reflexivity].
Defined.

Lemma add_amounts_zeros bs :
  Forall u64 bs -> Stable.add_amounts bs (repeat 0 (length bs)) = Some bs.
Proof.
  induction 1 as [|b bs Hb Hbs IH]; [reflexivity|].
  simpl. unfold checked_add. rewrite Z.add_0_r, fits_in by exact Hb. cbn [obind].
  rewrite IH. reflexivity.
Qed.

(** X15: a successful [calc_lp_tokens_for_deposit_simple] mints a
    nonnegative amount of at most the supply's share of the invariant
    growth: [minted * current_d <= lp_supply * (new_d - current_d)], where
    [new_d] is the invariant after every amount is added to its balance. *)
Theorem stable_deposit_simple_within_growth amp balances amounts_in lp_supply m :
  Stable.calc_lp_tokens_for_deposit_simple amp balances amounts_in lp_supply = Some m ->
  exists current_d new_balances new_d,
    Stable.calc_invariant amp balances = Some current_d /\
    Stable.add_amounts balances amounts_in = Some new_balances /\
    Stable.calc_invariant amp new_balances = Some new_d /\
    0 <= m /\ m * current_d <= lp_supply * (new_d - current_d).
Proof.
  intros H. unfold Stable.calc_lp_tokens_for_deposit_simple in H.
  apply obind_some in H as (cd & Hcd & H). apply obind_some in H as (nbs & Hnbs & H).
  apply obind_some in H as (nd & Hnd & H).
  exists cd, nbs, nd. split; [exact Hcd|]. split; [exact Hnbs|]. split; [exact Hnd|].
  pose proof (stable_calc_invariant_range _ _ _ Hcd) as Hcd0.
  unfold checked_mul, checked_sub in H. peel.
  assert (Hpos : 0 < cd) by lia.
  assert (Hq : lp_supply * nd / cd * cd <= lp_supply * nd).
  { rewrite Z.mul_comm. apply Z.mul_div_le. exact Hpos. }
  split; [lia | nia].
Qed.

(** Witness of X15: depositing 1e12 of each token into the reference pool
    mints 2000017357076 LP tokens. *)
Lemma stable_deposit_simple_within_growth_witness :
  exists current_d new_balances new_d,
    Stable.calc_invariant 5000000 [40000000000000000; 60000000000000000] = Some current_d /\
    Stable.add_amounts [40000000000000000; 60000000000000000]
      [1000000000000; 1000000000000] = Some new_balances /\
    Stable.calc_invariant 5000000 new_balances = Some new_d /\
    0 <= 2000017357076 /\ 2000017357076 * current_d <= 100000000000000000 * (new_d - current_d).
Proof.
  apply (stable_deposit_simple_within_growth 5000000 [40000000000000000; 60000000000000000]
           [1000000000000; 1000000000000] 100000000000000000).
  vm_compute. reflexivity.
Defined.

(** X16: depositing nothing mints nothing: on u64 balances with a positive
    invariant, [calc_lp_tokens_for_deposit_simple] with all amounts 0 returns
    [Some 0] (when [lp_supply * D] fits in u128). *)
Theorem stable_deposit_simple_zero amp balances lp_supply d :
  Forall u64 balances -> Stable.calc_invariant amp balances = Some d -> 0 < d ->
  0 <= lp_supply -> lp_supply * d < U128_MAX1 ->
  Stable.calc_lp_tokens_for_deposit_simple amp balances (repeat 0 (length balances)) lp_supply
    = Some 0.
Proof.
  intros Hb Hd Hd0 Hlp Hm. unfold Stable.calc_lp_tokens_for_deposit_simple.
  rewrite Hd. cbn [obind]. rewrite add_amounts_zeros by exact Hb. cbn [obind].
  rewrite Hd. cbn [obind]. unfold checked_mul. rewrite fits_in by nia. cbn [obind].
  unfold checked_div. rewrite (proj2 (Z.eqb_neq d 0)) by lia. cbn [obind].
  rewrite Z.div_mul by lia. unfold checked_sub. rewrite Z.sub_diag.
  rewrite fits_in by (unfold U128_MAX1; lia). cbn [obind].
  apply fits_in. unfold U64_MAX1. lia.
Qed.

(** Witness of X16 on the reference pool of C1 *)
Lemma stable_deposit_simple_zero_witness :
  Stable.calc_lp_tokens_for_deposit_simple 5000000 [40000000000000000; 60000000000000000]
    [0; 0] 100000000000000000 = Some 0.
Proof.
  apply (stable_deposit_simple_zero 5000000 [40000000000000000; 60000000000000000]
           100000000000000000 99999583421855646).
  - repeat constructor; unfold u64, U64_MAX1; lia.
  - vm_compute. reflexivity.
  - lia.
  - lia.
  - unfold U128_MAX1. lia.
Defined.

(** ** fixed.rs: the complement *)

(** X17: on fractions between 0 and 1.0, [complement] is an involution for
    both the u128 and the u64 implementation: [1 - (1 - x) = x]. *)
Theorem complement_involutive (x : Z) :
  0 <= x <= ONE ->
  U128.complement (U128.complement x) = x /\ U64.complement (U64.complement x) = x.
Proof.
  intros Hx. unfold U128.complement, U64.complement, saturating_sub, ONE, ONE_U64, SCALE in *.
  split; lia.
Qed.

(** Witness of X17 *)
Lemma complement_involutive_witness :
  U128.complement (U128.complement 3000000) = 3000000 /\
  U64.complement (U64.complement 3000000) = 3000000.
Proof. apply complement_involutive. unfold ONE, SCALE. lia. Defined.

(** ** state/pool.rs: scaling *)

(** X18: scaling an amount up and back down returns it unchanged whenever
    the scaled amount fits in u64. *)
Theorem scale_amount_round_trip scaling_factor raw :
  0 < scaling_factor -> 0 <= raw -> raw * scaling_factor < U64_MAX1 ->
  obind (PoolToken.scale_amount_up scaling_factor raw)
        (PoolToken.scale_amount_down scaling_factor) = Some raw.
Proof.
  intros Hf Hr Hm. unfold PoolToken.scale_amount_up, PoolToken.scale_amount_down, checked_mul.
  rewrite fits_in by nia. cbn [obind]. unfold checked_div.
  rewrite (proj2 (Z.eqb_neq scaling_factor 0)) by lia. rewrite Z.div_mul by lia.
  reflexivity.
Qed.

(** Witness of X18: 1.5 tokens of a 6-decimal mint scaled to 9 decimals. *)
Lemma scale_amount_round_trip_witness :
  obind (PoolToken.scale_amount_up 1000 1500000) (PoolToken.scale_amount_down 1000)
    = Some 1500000.
Proof. apply scale_amount_round_trip; unfold U64_MAX1; lia. Defined.

(** X19: scaling a u64 amount down and back up never panics and loses
    less than one scaling unit: the result [z] satisfies
    [amount - scaling_factor < z <= amount]. *)
Theorem scale_amount_down_up scaling_factor amount :
  0 < scaling_factor -> u64 amount ->
  exists y z, PoolToken.scale_amount_down scaling_factor amount = Some y /\
    PoolToken.scale_amount_up scaling_factor y = Some z /\
    amount - scaling_factor < z <= amount.
Proof.
  intros Hf Ha. unfold u64 in Ha.
  exists (amount / scaling_factor), (amount / scaling_factor * scaling_factor).
  unfold PoolToken.scale_amount_down, PoolToken.scale_amount_up, checked_div, checked_mul.
  rewrite (proj2 (Z.eqb_neq scaling_factor 0)) by lia.
  assert (Hle : amount / scaling_factor * scaling_factor <= amount).
  { rewrite Z.mul_comm. apply Z.mul_div_le. exact Hf. }
  assert (Hgt : amount - scaling_factor < amount / scaling_factor * scaling_factor).
  { Z.div_mod_to_equations. nia. }
  assert (H0 : 0 <= amount / scaling_factor * scaling_factor).
  { apply Z.mul_nonneg_nonneg; [apply Z.div_pos|]; lia. }
  split; [reflexivity|]. split; [apply fits_in; lia|]. lia.
Qed.

(** Witness of X19 *)
Lemma scale_amount_down_up_witness :
  exists y z, PoolToken.scale_amount_down 1000 1500123 = Some y /\
    PoolToken.scale_amount_up 1000 y = Some z /\ 1500123 - 1000 < z <= 1500123.
Proof. apply scale_amount_down_up; [lia | unfold u64, U64_MAX1; lia]. Defined.
